(** * Weighted Round Robin scheduler ([wrr_scheduler.c]): model and properties

    The development embeds [wrr_schedule] and the demonstration callback
    [demo_alloc_fn] of [src/wrr_scheduler.c] as executable Rocq functions
    over an explicit memory, and proves the properties of the scheduling
    pass: cursor update, attempt counts, traversal order, degenerate cases,
    frame and independence from participant identifiers.

    Conventions:
    - [size_t] is a 64-bit unsigned integer, [uint8_t] an 8-bit one and
      [uint16_t] a 16-bit one; all are carried as [Z] and every arithmetic
      operation of the source has its wrap-around written out;
    - the array [ues] lives in the memory [mem]; the pointer [&ues[idx]] is
      the index [idx]; reading past the end of the array is a [Fault];
    - the callback takes a [const ue_t *] and a [void *ctx]: it receives the
      pointer, the record it points to, and the context it may update; the
      context is a part of the memory apart from the array;
    - the memory carries a ghost trace of events ([EvVisit], [EvAlloc]) that
      records the steps of the pass and the callback invocations. *)

From Stdlib Require Import ZArith List Bool Lia Permutation.
Import ListNotations.
Open Scope Z_scope.

(** ** Machine integers *)

Definition SIZE_BITS : Z := 64.
Definition size_modulus : Z := 2 ^ SIZE_BITS.
Definition u8_modulus : Z := 2 ^ 8.
Definition u16_modulus : Z := 2 ^ 16.

(** Unsigned addition of [size_t] and [uint8_t] values. *)
Definition size_wrap (z : Z) : Z := z mod size_modulus.
Definition u8_wrap (z : Z) : Z := z mod u8_modulus.
Definition size_add (a b : Z) : Z := size_wrap (a + b).

(** ** Data types ([ue.h], [wrr_scheduler.h]) *)

Definition MAX_UES : Z := 64.

Record ue_t : Type := mk_ue {
  ue_id : Z;      (* uint16_t *)
  weight : Z;     (* uint8_t *)
  active : bool
}.

Inductive alloc_outcome_t : Type :=
| ALLOC_FAIL
| ALLOC_SUCCESS.

(** Ghost events: a step of the main pass at a position, and one invocation
    of the callback (position, attempt number [k], outcome). *)
Inductive event : Type :=
| EvVisit (idx : Z)
| EvAlloc (idx : Z) (k : Z) (res : alloc_outcome_t).

Inductive fault : Type :=
| OutOfBounds
| OutOfFuel.

(** The condition [ue->active && ue->weight > 0] of the source. *)
Definition eligible (u : ue_t) : bool := active u && (weight u >? 0).

(** A record whose fields fit their C types. *)
Definition ue_ok (u : ue_t) : bool :=
  (0 <=? ue_id u) && (ue_id u <? u16_modulus) &&
  (0 <=? weight u) && (weight u <? u8_modulus).

Section Scheduler.

Context {Ctx : Type}.

(** The callback type [alloc_ue_fn] of [wrr_scheduler.c]: from a
    [const ue_t *ue] and a [void *ctx] to an [alloc_outcome_t].  (The
    header [wrr_scheduler.h] declares the first parameter without [const];
    the definition next to [wrr_schedule] is the one embedded.) *)
Definition alloc_ue_fn : Type := Z -> ue_t -> Ctx -> alloc_outcome_t * Ctx.

Record mem : Type := mk_mem {
  m_ues : list ue_t;
  m_ctx : Ctx;
  m_trace : list event
}.

(** ** A state and error monad over the memory *)

Inductive outcome (A : Type) : Type :=
| Ok (a : A) (m : mem)
| Fault (e : fault).
Arguments Ok {A} a m.
Arguments Fault {A} e.

Definition M (A : Type) : Type := mem -> outcome A.

Definition ret {A} (a : A) : M A := fun m => Ok a m.

Definition bind {A B} (c : M A) (k : A -> M B) : M B :=
  fun m => match c m with
           | Ok a m' => k a m'
           | Fault e => Fault e
           end.

Notation "x <- c ;; k" := (bind c (fun x => k))
  (at level 61, c at next level, right associativity).

(** [ues[idx]] *)
Definition load_ue (idx : Z) : M ue_t :=
  fun m =>
    if idx <? 0 then Fault OutOfBounds
    else match nth_error (m_ues m) (Z.to_nat idx) with
         | Some u => Ok u m
         | None => Fault OutOfBounds
         end.

(** Ghost: a step of the main pass reaches position [idx]. *)
Definition mark_visit (idx : Z) : M unit :=
  fun m => Ok tt (mk_mem (m_ues m) (m_ctx m) (m_trace m ++ [EvVisit idx])).

(** [alloc_fn(ue, ctx)] with [ue = &ues[idx]]; [k] is only logged. *)
Definition call_alloc (alloc_fn : alloc_ue_fn) (idx k : Z) : M alloc_outcome_t :=
  fun m =>
    if idx <? 0 then Fault OutOfBounds
    else match nth_error (m_ues m) (Z.to_nat idx) with
         | Some u =>
             let (res, c') := alloc_fn idx u (m_ctx m) in
             Ok res (mk_mem (m_ues m) c' (m_trace m ++ [EvAlloc idx k res]))
         | None => Fault OutOfBounds
         end.

(** [for (T i = lo; i < hi; i++) body], the counter of an unsigned type
    whose increment is reduced by [wrap]. *)
Fixpoint for_loop {S : Type} (fuel : nat) (wrap : Z -> Z) (i hi : Z)
    (body : Z -> S -> M S) (s : S) : M S :=
  match fuel with
  | O => fun _ => Fault OutOfFuel
  | Datatypes.S fuel' =>
      if i <? hi
      then s' <- body i s ;; for_loop fuel' wrap (wrap (i + 1)) hi body s'
      else ret s
  end.

(** ** [wrr_schedule] *)

(** Body of the counting loop: [if (ues[i].active && ues[i].weight > 0)
    active_count++]. *)
Definition count_body (i : Z) (active_count : Z) : M Z :=
  ue <- load_ue i ;;
  if active ue && (weight ue >? 0)
  then ret (size_add active_count 1)
  else ret active_count.

(** Local variables of the main pass. *)
Record pass_state : Type := mk_pass {
  ps_any_success : bool;
  ps_idx : Z;
  ps_next_idx : Z
}.

(** Body of the inner loop: one call of the callback. *)
Definition attempt_body (alloc_fn : alloc_ue_fn) (idx : Z) (k : Z)
    (any_success : bool) : M bool :=
  res <- call_alloc alloc_fn idx k ;;
  match res with
  | ALLOC_SUCCESS => ret true
  | ALLOC_FAIL => ret any_success
  end.

(** Body of the main pass. *)
Definition pass_body (alloc_fn : alloc_ue_fn) (n : Z) (visited : Z)
    (st : pass_state) : M pass_state :=
  let idx := ps_idx st in
  _ <- mark_visit idx ;;
  ue <- load_ue idx ;;
  st' <- (if active ue && (weight ue >? 0)
          then
            let w := weight ue in
            any <- for_loop (S (Z.to_nat w)) u8_wrap 0 w
                     (attempt_body alloc_fn idx) (ps_any_success st) ;;
            if any
            then ret (mk_pass any idx (size_add idx 1 mod n))
            else ret (mk_pass any idx (ps_next_idx st))
          else ret st) ;;
  ret (mk_pass (ps_any_success st') (size_add idx 1 mod n) (ps_next_idx st')).

(** [size_t wrr_schedule(ue_t *ues, size_t n, size_t next_idx,
                         alloc_ue_fn alloc_fn, void *ctx)];
    [ues] and [ctx] are in the memory, [None] is the null callback. *)
Definition wrr_schedule (n next_idx : Z) (alloc_fn : option alloc_ue_fn) : M Z :=
  if n =? 0 then ret 0
  else match alloc_fn with
       | None => ret 0
       | Some f =>
           active_count <- for_loop (S (Z.to_nat n)) size_wrap 0 n count_body 0 ;;
           if active_count =? 0 then ret (next_idx mod n)
           else
             st <- for_loop (S (Z.to_nat n)) size_wrap 0 n (pass_body f n)
                     (mk_pass false (next_idx mod n) next_idx) ;;
             ret (ps_next_idx st mod n)
       end.

(** ** Well-formed calls and observations *)

(** The arguments fit [size_t], the array has at least [n] entries, and
    the records fit their types. *)
Definition call_ok (n next_idx : Z) (m : mem) : bool :=
  (0 <=? n) && (n <? size_modulus) &&
  (0 <=? next_idx) && (next_idx <? size_modulus) &&
  (n <=? Z.of_nat (length (m_ues m))) &&
  forallb ue_ok (m_ues m).

(** The participants the call ranges over: [ues[0 .. n-1]]. *)
Definition participants (n : Z) (m : mem) : list ue_t :=
  firstn (Z.to_nat n) (m_ues m).

Definition has_eligible (n : Z) (m : mem) : bool :=
  existsb eligible (participants n m).

(** Events the call appended to the trace. *)
Definition new_events (m m' : mem) : list event :=
  skipn (length (m_trace m)) (m_trace m').

End Scheduler.

Arguments mem Ctx : clear implicits.
Arguments alloc_ue_fn Ctx : clear implicits.
Arguments Ok {Ctx A} a m.
Arguments Fault {Ctx A} e.

(** ** Observations on traces *)

Definition is_success (e : event) : bool :=
  match e with
  | EvAlloc _ _ ALLOC_SUCCESS => true
  | _ => false
  end.

Definition is_alloc (e : event) : bool :=
  match e with
  | EvAlloc _ _ _ => true
  | EvVisit _ => false
  end.

Definition is_alloc_at (p : Z) (e : event) : bool :=
  match e with
  | EvAlloc idx _ _ => idx =? p
  | EvVisit _ => false
  end.

(** Positions of the steps of the pass, in order. *)
Fixpoint visits (evs : list event) : list Z :=
  match evs with
  | [] => []
  | EvVisit idx :: evs' => idx :: visits evs'
  | EvAlloc _ _ _ :: evs' => visits evs'
  end.

(** Positions of the callback invocations, in order. *)
Fixpoint alloc_positions (evs : list event) : list Z :=
  match evs with
  | [] => []
  | EvVisit _ :: evs' => alloc_positions evs'
  | EvAlloc idx _ _ :: evs' => idx :: alloc_positions evs'
  end.

(** Number of callback invocations. *)
Definition attempts (evs : list event) : Z :=
  Z.of_nat (length (filter is_alloc evs)).

(** Number of callback invocations for position [p]. *)
Definition attempts_at (p : Z) (evs : list event) : Z :=
  Z.of_nat (length (filter (is_alloc_at p) evs)).

(** Position of the participant whose attempt first succeeded. *)
Fixpoint first_success (evs : list event) : option Z :=
  match evs with
  | [] => None
  | EvAlloc idx _ ALLOC_SUCCESS :: _ => Some idx
  | _ :: evs' => first_success evs'
  end.

(** The first [cnt] positions of a pass from [s]: [s, s+1, ...] wrapping
    modulo [n]; one pass has [n] steps. *)
Definition steps_from (n s : Z) (cnt : nat) : list Z :=
  map (fun j => (s + Z.of_nat j) mod n) (seq 0 cnt).

Definition traversal (n s : Z) : list Z := steps_from n s (Z.to_nat n).

Definition ue_at (ues : list ue_t) (idx : Z) : option ue_t :=
  if idx <? 0 then None else nth_error ues (Z.to_nat idx).

Definition eligible_at (ues : list ue_t) (idx : Z) : bool :=
  match ue_at ues idx with
  | Some u => eligible u
  | None => false
  end.

(** Attempts a position is granted: its weight when eligible, else none. *)
Definition grant (ues : list ue_t) (idx : Z) : Z :=
  match ue_at ues idx with
  | Some u => if eligible u then weight u else 0
  | None => 0
  end.


Fixpoint last_opt {A} (l : list A) : option A :=
  match l with
  | [] => None
  | [x] => Some x
  | _ :: l' => last_opt l'
  end.

(** Last eligible position among the given ones. *)
Definition last_eligible (ues : list ue_t) (l : list Z) : option Z :=
  last_opt (filter (eligible_at ues) l).

Definition sum_weights (us : list ue_t) : Z :=
  fold_right Z.add 0 (map weight (filter eligible us)).

(** The events of one step of the pass at [idx], outcomes left out: the
    visit, then attempts numbered [0 .. grant-1]. *)
Definition step_shape (ues : list ue_t) (idx : Z) : list (Z * option Z) :=
  (idx, None) ::
  map (fun k => (idx, Some (Z.of_nat k))) (seq 0 (Z.to_nat (grant ues idx))).

Definition event_shape (e : event) : Z * option Z :=
  match e with
  | EvVisit idx => (idx, None)
  | EvAlloc idx k _ => (idx, Some k)
  end.

(** Visit and attempt positions read off a list of shapes. *)
Definition shape_visits (sh : list (Z * option Z)) : list Z :=
  flat_map (fun p => match snd p with None => [fst p] | Some _ => [] end) sh.

Definition shape_allocs (sh : list (Z * option Z)) : list Z :=
  flat_map (fun p => match snd p with None => [] | Some _ => [fst p] end) sh.

(** The positions of the attempts of a pass over [l]: each position as
    many times as it is granted, in the order of [l]. *)
Definition attempt_order (ues : list ue_t) (l : list Z) : list Z :=
  flat_map (fun idx => repeat idx (Z.to_nat (grant ues idx))) l.

(** Re-running the callback over the logged invocations, from context [c];
    [None] when a logged outcome differs from what the callback returns. *)
Definition outcome_eqb (a b : alloc_outcome_t) : bool :=
  match a, b with
  | ALLOC_FAIL, ALLOC_FAIL | ALLOC_SUCCESS, ALLOC_SUCCESS => true
  | _, _ => false
  end.

Fixpoint replay {Ctx} (f : alloc_ue_fn Ctx) (ues : list ue_t)
    (evs : list event) (c : Ctx) : option Ctx :=
  match evs with
  | [] => Some c
  | EvVisit _ :: evs' => replay f ues evs' c
  | EvAlloc idx _ res :: evs' =>
      match ue_at ues idx with
      | Some u =>
          let (res', c') := f idx u c in
          if outcome_eqb res res' then replay f ues evs' c' else None
      | None => None
      end
  end.

(** What one full pass does, in terms of the events it appends. *)
Record pass_result {Ctx} (f : alloc_ue_fn Ctx) (n s next_idx : Z) (cnt : nat)
    (m : mem Ctx) (st : pass_state) (m' : mem Ctx) (evs : list event) : Prop :=
  mk_pass_result {
    pr_ues : m_ues m' = m_ues m;
    pr_trace : m_trace m' = m_trace m ++ evs;
    pr_shape : map event_shape evs =
               flat_map (step_shape (m_ues m)) (steps_from n s cnt);
    pr_replay : replay f (m_ues m) evs (m_ctx m) = Some (m_ctx m');
    pr_any : ps_any_success st = existsb is_success evs;
    pr_moved : ps_any_success st = true ->
               exists i, last_eligible (m_ues m) (steps_from n s cnt) = Some i /\
                         ps_next_idx st = (i + 1) mod n;
    pr_kept : ps_any_success st = false -> ps_next_idx st = next_idx
  }.

(** ** Comparing two runs *)

(** Two records agree on what the scheduler reads: [weight] and [active]. *)
Definition same_sched (u1 u2 : ue_t) : bool :=
  (weight u1 =? weight u2) && Bool.eqb (active u1) (active u2).

(** Two arrays of equal length agree on [weight] and [active] at every
    position. *)
Fixpoint same_schedule (us1 us2 : list ue_t) : bool :=
  match us1, us2 with
  | [], [] => true
  | u1 :: r1, u2 :: r2 => same_sched u1 u2 && same_schedule r1 r2
  | _, _ => false
  end.

(** A callback whose outcome and context update do not depend on the
    identifier of the record: they are determined by the position, the
    context (which may count the attempts), and [weight] and [active]. *)
Definition id_blind {Ctx} (f : alloc_ue_fn Ctx) : Prop :=
  forall idx u1 u2 c, same_sched u1 u2 = true -> f idx u1 c = f idx u2 c.

(** Two outcomes related: both return, with related values and memories,
    or both stop on the same fault. *)
Definition rel_outcome {Ctx A B} (RM : mem Ctx -> mem Ctx -> Prop)
    (RA : A -> B -> Prop) (o1 : @outcome Ctx A) (o2 : @outcome Ctx B) : Prop :=
  match o1, o2 with
  | Ok a m1, Ok b m2 => RA a b /\ RM m1 m2
  | Fault e1, Fault e2 => e1 = e2
  | _, _ => False
  end.

(** Memories that differ at most in identifiers and in the events logged
    before the call (after [t1] and [t2]). *)
Definition mem_alike {Ctx} (t1 t2 : list event) (m1 m2 : mem Ctx) : Prop :=
  m_ctx m1 = m_ctx m2 /\
  same_schedule (m_ues m1) (m_ues m2) = true /\
  exists evs, m_trace m1 = t1 ++ evs /\ m_trace m2 = t2 ++ evs.

(** Pass states that agree up to the normalisation of the pending cursor. *)
Definition pass_alike (n : Z) (st1 st2 : pass_state) : Prop :=
  ps_any_success st1 = ps_any_success st2 /\
  ps_idx st1 = ps_idx st2 /\
  ps_next_idx st1 mod n = ps_next_idx st2 mod n.

(** ** The demonstration callback and driver *)

Record demo_ctx_t : Type := mk_demo_ctx { rb_budget : Z }.

(** [demo_alloc_fn]: succeeds and burns one unit while budget remains
    (console output left out). *)
Definition demo_alloc_fn : alloc_ue_fn demo_ctx_t :=
  fun _ ue d =>
    if rb_budget d <=? 0 then (ALLOC_FAIL, d)
    else (ALLOC_SUCCESS, mk_demo_ctx (rb_budget d - 1)).

(** A callback that always fails, and one that always succeeds. *)
Definition always_fail : alloc_ue_fn unit := fun _ _ c => (ALLOC_FAIL, c).
Definition always_success : alloc_ue_fn unit := fun _ _ c => (ALLOC_SUCCESS, c).

(** The array of [main]. *)
Definition demo_ues : list ue_t :=
  [ mk_ue 1001 1 true; mk_ue 1002 2 true; mk_ue 1003 4 true ].

(** The loop of [main]: [ttis] scheduling instants with a budget of 6 each,
    returning the cursors. *)
Fixpoint main_loop (ttis : nat) (next_idx : Z) (trace : list event) : list Z :=
  match ttis with
  | O => []
  | S ttis' =>
      match wrr_schedule 3 next_idx (Some demo_alloc_fn)
              (mk_mem demo_ues (mk_demo_ctx 6) trace) with
      | Ok next_idx' m' => next_idx' :: main_loop ttis' next_idx' (m_trace m')
      | Fault _ => []
      end
  end.

(** Memories and callbacks used in the examples. *)
Definition m_demo : mem demo_ctx_t := mk_mem demo_ues (mk_demo_ctx 6) [].

Definition m_unit : mem unit := mk_mem demo_ues tt [].

Definition idle_ues : list ue_t := [ mk_ue 7 1 false; mk_ue 8 0 true ].

Definition m_idle : mem demo_ctx_t := mk_mem idle_ues (mk_demo_ctx 6) [].

(** A callback that fails until the context, a countdown, reaches zero. *)
Definition late_alloc : alloc_ue_fn Z :=
  fun _ _ c => if c <=? 0 then (ALLOC_SUCCESS, c) else (ALLOC_FAIL, c - 1).

(** A callback determined by the position and the number of the attempt,
    which the context counts. *)
Definition alternating_alloc : alloc_ue_fn Z :=
  fun idx _ c =>
    (if Z.even (idx + c) then ALLOC_SUCCESS else ALLOC_FAIL, c + 1).

(** The array of [main] with other identifiers. *)
Definition renamed_ues : list ue_t :=
  [ mk_ue 1 1 true; mk_ue 2 2 true; mk_ue 3 4 true ].

(** ** Further observations *)

(** Outcomes of the callback invocations, in order. *)
Fixpoint alloc_outcomes (evs : list event) : list alloc_outcome_t :=
  match evs with
  | [] => []
  | EvVisit _ :: evs' => alloc_outcomes evs'
  | EvAlloc _ _ res :: evs' => res :: alloc_outcomes evs'
  end.

Definition ue_eqb (u1 u2 : ue_t) : bool :=
  (ue_id u1 =? ue_id u2) && (weight u1 =? weight u2) &&
  Bool.eqb (active u1) (active u2).

(** Two arrays agree on what a call over [k] entries can see: at each of
    the first [k] positions both have a record or both end, and the two
    records are equal unless both are ineligible. *)
Fixpoint alike_upto (k : nat) (us1 us2 : list ue_t) : bool :=
  match k with
  | O => true
  | S k' =>
      match us1, us2 with
      | u1 :: r1, u2 :: r2 =>
          (ue_eqb u1 u2 || (negb (eligible u1) && negb (eligible u2))) &&
          alike_upto k' r1 r2
      | [], [] => true
      | _, _ => false
      end
  end.


(** What [demo_alloc_fn] can grant out of a budget [b] over [w] attempts. *)
Definition demo_granted (b w : Z) : Z := Z.min (Z.max b 0) w.

(** An array with ineligible records, and one that differs from it only in
    ineligible records and past the fourth entry. *)
Definition gappy_ues : list ue_t :=
  [ mk_ue 1 2 true; mk_ue 2 0 true; mk_ue 3 3 true; mk_ue 4 5 false ].


(** A callback that looks at the identifier. *)
Definition odd_id_alloc : alloc_ue_fn unit :=
  fun _ u c => (if Z.odd (ue_id u) then ALLOC_SUCCESS else ALLOC_FAIL, c).

(** * Examples *)

Example main_cursors : main_loop 5 0 [] = [0; 0; 0; 0; 0].
Proof. vm_compute. reflexivity. Qed.

(** The scenarios of the specification: weights 1, 2 and 4, all active. *)
Example scenario_all_success :
  wrr_schedule 3 0 (Some always_success) m_unit =
  Ok 0 (mk_mem demo_ues tt
          [ EvVisit 0; EvAlloc 0 0 ALLOC_SUCCESS;
            EvVisit 1; EvAlloc 1 0 ALLOC_SUCCESS; EvAlloc 1 1 ALLOC_SUCCESS;
            EvVisit 2; EvAlloc 2 0 ALLOC_SUCCESS; EvAlloc 2 1 ALLOC_SUCCESS;
            EvAlloc 2 2 ALLOC_SUCCESS; EvAlloc 2 3 ALLOC_SUCCESS ]).
Proof. vm_compute. reflexivity. Qed.

Example scenario_all_fail :
  match wrr_schedule 3 0 (Some always_fail) m_unit with
  | Ok r m' => r = 0 /\ attempts (new_events m_unit m') = 7
  | Fault _ => False
  end.
Proof. vm_compute. split; reflexivity. Qed.

Example scenario_start_5 :
  match wrr_schedule 3 5 (Some always_success) m_unit with
  | Ok r m' => visits (new_events m_unit m') = [2; 0; 1]
  | Fault _ => False
  end.
Proof. vm_compute. reflexivity. Qed.

(** A first success in the middle of the pass: from position 1, the
    attempts of position 1 fail, position 2 succeeds at its second attempt,
    and the cursor ends just past position 0, the last one visited. *)
Example scenario_late_success :
  match wrr_schedule 3 1 (Some late_alloc) (mk_mem demo_ues 3 []) with
  | Ok r m' => r = 1 /\ first_success (new_events (mk_mem demo_ues 3 []) m') = Some 2
  | Fault _ => False
  end.
Proof. vm_compute. split; reflexivity. Qed.

(** Reading past the end of the array is a fault of the model. *)
Example scenario_out_of_bounds :
  wrr_schedule 4 0 (Some demo_alloc_fn) m_demo = Fault OutOfBounds.
Proof. vm_compute. reflexivity. Qed.

(** * Proofs *)

(** Settle a test of the source from what is known about its operands. *)
Ltac test_false t :=
  replace t with false
    by (symmetry; first [apply Z.ltb_ge | apply Z.eqb_neq | apply Nat.ltb_ge]; lia).

Ltac test_true t :=
  replace t with true
    by (symmetry; first [apply Z.ltb_lt | apply Z.eqb_eq | apply Nat.ltb_lt]; lia).

(** ** Lists and arithmetic *)

Lemma last_opt_snoc {A} (l : list A) (x : A) : last_opt (l ++ [x]) = Some x.
Proof.
  induction l as [|y l IH]; [reflexivity|].
  cbn [app last_opt]. destruct (l ++ [x]) eqn:E; [|exact IH].
  destruct l; discriminate.
Qed.


Lemma existsb_false_filter {A} (f : A -> bool) (l : list A) :
  existsb f l = false <-> filter f l = [].
Proof.
  induction l as [|x l IH]; cbn; [tauto|].
  destruct (f x); cbn; [split; discriminate | exact IH].
Qed.

Lemma firstn_snoc {A} (l : list A) (k : nat) (x : A) :
  nth_error l k = Some x -> firstn (S k) l = firstn k l ++ [x].
Proof.
  revert k; induction l as [|y l IH]; intros [|k] H; cbn in *; try discriminate.
  - congruence.
  - f_equal. apply IH, H.
Qed.

Lemma NoDup_map_on {A B} (f : A -> B) (l : list A) :
  (forall x y, In x l -> In y l -> f x = f y -> x = y) ->
  NoDup l -> NoDup (map f l).
Proof.
  intros Hinj N. induction N as [|x l Hx N IH]; cbn; constructor.
  - intros Hin. apply in_map_iff in Hin. destruct Hin as (y & E & Hy).
    apply Hx. rewrite (Hinj x y); [exact Hy | left; reflexivity | right; exact Hy | now symmetry].
  - apply IH. intros a b Ha Hb. apply Hinj; right; assumption.
Qed.

Lemma mod_shift_inj (n s a b : Z) :
  0 <= a < n -> 0 <= b < n -> (s + a) mod n = (s + b) mod n -> a = b.
Proof.
  intros Ha Hb E.
  assert (Hn : n <> 0) by lia.
  pose proof (Z.div_mod (s + a) n Hn) as Da.
  pose proof (Z.div_mod (s + b) n Hn) as Db.
  rewrite E in Da.
  set (d := (s + a) / n - (s + b) / n).
  assert (Hd : a - b = n * d) by (unfold d; lia).
  assert (d = 0) by nia.
  subst d. nia.
Qed.

Lemma size_add_small (a : Z) : 0 <= a -> a + 1 < size_modulus -> size_add a 1 = a + 1.
Proof. intros; unfold size_add, size_wrap. apply Z.mod_small; lia. Qed.

Lemma size_wrap_small (a : Z) : 0 <= a < size_modulus -> size_wrap a = a.
Proof. intros; unfold size_wrap. apply Z.mod_small; lia. Qed.

Lemma u8_wrap_small (a : Z) : 0 <= a < u8_modulus -> u8_wrap a = a.
Proof. intros; unfold u8_wrap. apply Z.mod_small; lia. Qed.

Lemma steps_from_S (n s : Z) (cnt : nat) :
  steps_from n s (S cnt) = steps_from n s cnt ++ [(s + Z.of_nat cnt) mod n].
Proof. unfold steps_from. rewrite seq_S, map_app. reflexivity. Qed.

Lemma steps_from_length (n s : Z) (cnt : nat) : length (steps_from n s cnt) = cnt.
Proof. unfold steps_from. now rewrite length_map, length_seq. Qed.

Lemma steps_from_range (n s : Z) (cnt : nat) (p : Z) :
  0 < n -> In p (steps_from n s cnt) -> 0 <= p < n.
Proof.
  intros Hn H. unfold steps_from in H. apply in_map_iff in H.
  destruct H as (j & <- & _). apply Z.mod_pos_bound, Hn.
Qed.

Lemma steps_from_NoDup (n s : Z) (cnt : nat) :
  Z.of_nat cnt <= n -> NoDup (steps_from n s cnt).
Proof.
  intros Hc. unfold steps_from. apply NoDup_map_on; [|apply seq_NoDup].
  intros a b Ha Hb E. apply in_seq in Ha, Hb.
  apply Nat2Z.inj. apply (mod_shift_inj n s); [lia | lia | exact E].
Qed.

(** One pass reaches every position of [0 .. n-1] exactly once. *)
Lemma traversal_Permutation (n s : Z) :
  0 < n -> Permutation (traversal n s) (map Z.of_nat (seq 0 (Z.to_nat n))).
Proof.
  intros Hn. apply NoDup_Permutation_bis.
  - apply steps_from_NoDup. lia.
  - unfold traversal. rewrite steps_from_length, length_map, length_seq. lia.
  - intros p Hp. apply steps_from_range in Hp; [|exact Hn].
    apply in_map_iff. exists (Z.to_nat p). split; [lia|].
    apply in_seq. lia.
Qed.

Lemma traversal_In (n s p : Z) : 0 < n -> (In p (traversal n s) <-> 0 <= p < n).
Proof.
  intros Hn. split.
  - apply steps_from_range, Hn.
  - intros Hp. apply (Permutation_in _ (Permutation_sym (traversal_Permutation n s Hn))).
    apply in_map_iff. exists (Z.to_nat p). split; [lia|]. apply in_seq. lia.
Qed.

(** ** Loops *)

Section Loops.

Context {Ctx : Type}.

(** Invariant rule for a counted loop whose counter does not wrap: with
    fuel for [hi - lo] steps and the exit test, the loop runs to [hi]. *)
Lemma for_loop_inv {St : Type} (Inv : Z -> St -> mem Ctx -> Prop)
    (wrap : Z -> Z) (hi : Z) (body : Z -> St -> @M Ctx St) :
  (forall i, 0 <= i < hi -> wrap (i + 1) = i + 1) ->
  (forall i s m, 0 <= i < hi -> Inv i s m ->
     exists s' m', body i s m = Ok s' m' /\ Inv (i + 1) s' m') ->
  forall (d : nat) (lo : Z) s m,
    0 <= lo -> lo + Z.of_nat d = hi -> Inv lo s m ->
    exists s' m',
      for_loop (S d) wrap lo hi body s m = Ok s' m' /\ Inv hi s' m'.
Proof.
  intros Hwrap Hbody. induction d as [|d IH]; intros lo s m Hlo Hd HI.
  - cbn. test_false (lo <? hi).
    exists s, m. split; [reflexivity|]. replace hi with lo by lia. exact HI.
  - cbn [for_loop]. test_true (lo <? hi).
    unfold bind at 1.
    destruct (Hbody lo s m) as (s1 & m1 & E1 & HI1); [lia | exact HI |].
    rewrite E1, Hwrap by lia. apply IH; [lia | lia | exact HI1].
Qed.

Lemma load_ue_in_bounds (idx : Z) (m : mem Ctx) :
  0 <= idx < Z.of_nat (length (m_ues m)) ->
  exists u, nth_error (m_ues m) (Z.to_nat idx) = Some u /\ load_ue idx m = Ok u m.
Proof.
  intros H. unfold load_ue.
  test_false (idx <? 0).
  destruct (nth_error (m_ues m) (Z.to_nat idx)) as [u|] eqn:E.
  - exists u. split; reflexivity.
  - apply nth_error_None in E. lia.
Qed.

(** The counting loop leaves the memory as it is and counts the eligible
    participants among [ues[0 .. n-1]]. *)
Lemma count_loop_spec (n : Z) (m : mem Ctx) :
  0 <= n < size_modulus -> n <= Z.of_nat (length (m_ues m)) ->
  for_loop (S (Z.to_nat n)) size_wrap 0 n count_body 0 m =
    Ok (Z.of_nat (length (filter eligible (participants n m)))) m.
Proof.
  intros Hn Hlen.
  pose (Inv := fun (i c : Z) (m' : mem Ctx) =>
    m' = m /\ 0 <= c <= i /\
    c = Z.of_nat (length (filter eligible (firstn (Z.to_nat i) (m_ues m))))).
  destruct (for_loop_inv Inv size_wrap n count_body) with
    (d := Z.to_nat n) (lo := 0) (s := 0) (m := m) as (c & m' & E & -> & _ & ->).
  - intros i Hi. apply size_wrap_small. lia.
  - intros i c m0 Hi (-> & Hc & ->).
    destruct (load_ue_in_bounds i m) as (u & Hu & Hload); [lia|].
    assert (Hnext : filter eligible (firstn (Z.to_nat (i + 1)) (m_ues m)) =
                    filter eligible (firstn (Z.to_nat i) (m_ues m)) ++
                    (if eligible u then [u] else [])).
    { replace (Z.to_nat (i + 1)) with (S (Z.to_nat i)) by lia.
      rewrite (firstn_snoc _ _ _ Hu), filter_app. reflexivity. }
    unfold count_body, bind. rewrite Hload. unfold Inv. rewrite Hnext, length_app.
    change (active u && (weight u >? 0)) with (eligible u).
    destruct (eligible u); cbn [length ret].
    + eexists _, m. split; [reflexivity|].
      rewrite size_add_small by lia. split; [reflexivity|]. lia.
    + eexists _, m. split; [reflexivity|].
      split; [reflexivity|]. lia.
  - lia.
  - lia.
  - unfold Inv. cbn. repeat split; lia.
  - exact E.
Qed.

Lemma replay_app (f : alloc_ue_fn Ctx) (ues : list ue_t) (e1 e2 : list event) (c : Ctx) :
  replay f ues (e1 ++ e2) c =
  match replay f ues e1 c with
  | Some c' => replay f ues e2 c'
  | None => None
  end.
Proof.
  revert c; induction e1 as [|[idx|idx k res] e1 IH]; intros c; cbn; auto.
  destruct (ue_at ues idx) as [u|]; [|reflexivity].
  destruct (f idx u c) as [res' c']. destruct (outcome_eqb res res'); auto.
Qed.

Lemma outcome_eqb_refl (r : alloc_outcome_t) : outcome_eqb r r = true.
Proof. destruct r; reflexivity. Qed.

(** The inner loop calls the callback once for each [k] in [0 .. w-1], at
    position [idx], threading the context; the flag is raised by any
    success and never lowered. *)
Lemma attempt_loop_spec (f : alloc_ue_fn Ctx) (idx : Z) (u : ue_t)
    (any0 : bool) (m : mem Ctx) :
  0 <= idx -> nth_error (m_ues m) (Z.to_nat idx) = Some u ->
  0 <= weight u < u8_modulus ->
  exists any m' evs,
    for_loop (S (Z.to_nat (weight u))) u8_wrap 0 (weight u)
      (attempt_body f idx) any0 m = Ok any m' /\
    m_ues m' = m_ues m /\
    m_trace m' = m_trace m ++ evs /\
    map event_shape evs =
      map (fun k => (idx, Some (Z.of_nat k))) (seq 0 (Z.to_nat (weight u))) /\
    replay f (m_ues m) evs (m_ctx m) = Some (m_ctx m') /\
    any = any0 || existsb is_success evs.
Proof.
  intros Hidx Hu Hw.
  pose (Inv := fun (k : Z) (any : bool) (m' : mem Ctx) =>
    m_ues m' = m_ues m /\
    exists evs,
      m_trace m' = m_trace m ++ evs /\
      map event_shape evs =
        map (fun k => (idx, Some (Z.of_nat k))) (seq 0 (Z.to_nat k)) /\
      replay f (m_ues m) evs (m_ctx m) = Some (m_ctx m') /\
      any = any0 || existsb is_success evs).
  destruct (for_loop_inv Inv u8_wrap (weight u) (attempt_body f idx)) with
    (d := Z.to_nat (weight u)) (lo := 0) (s := any0) (m := m)
    as (any & m' & E & Hues & evs & Htr & Hsh & Hrp & Hany).
  - intros i Hi. apply u8_wrap_small. lia.
  - intros k any m1 Hk (Hues & evs & Htr & Hsh & Hrp & Hany).
    unfold attempt_body, bind, call_alloc.
    test_false (idx <? 0).
    rewrite Hues, Hu.
    destruct (f idx u (m_ctx m1)) as [res c'] eqn:Ef.
    exists (match res with ALLOC_SUCCESS => true | ALLOC_FAIL => any end).
    eexists. split; [destruct res; reflexivity|].
    unfold Inv. cbn [m_ues m_ctx m_trace]. split; [reflexivity|].
    exists (evs ++ [EvAlloc idx k res]). repeat split.
    + rewrite Htr, app_assoc. reflexivity.
    + replace (Z.to_nat (k + 1)) with (S (Z.to_nat k)) by lia.
      rewrite seq_S, !map_app, Hsh. cbn. rewrite Z2Nat.id by lia. reflexivity.
    + rewrite replay_app, Hrp. cbn. unfold ue_at.
      test_false (idx <? 0).
      rewrite Hu, Ef, outcome_eqb_refl. reflexivity.
    + rewrite existsb_app, Hany. cbn.
      destruct res; cbn; rewrite ?orb_false_r, ?orb_true_r; reflexivity.
  - lia.
  - lia.
  - unfold Inv. split; [reflexivity|]. exists []. cbn.
    rewrite app_nil_r, orb_false_r. repeat split.
  - exists any, m', evs. repeat split; assumption.
Qed.

Lemma ue_at_nth (ues : list ue_t) (idx : Z) :
  0 <= idx -> ue_at ues idx = nth_error ues (Z.to_nat idx).
Proof.
  intros H. unfold ue_at.
  test_false (idx <? 0). reflexivity.
Qed.

Lemma ue_ok_weight (ues : list ue_t) (k : nat) (u : ue_t) :
  forallb ue_ok ues = true -> nth_error ues k = Some u ->
  0 <= weight u < u8_modulus.
Proof.
  intros Hall Hu. apply nth_error_In in Hu.
  rewrite forallb_forall in Hall. specialize (Hall u Hu).
  unfold ue_ok in Hall. rewrite !andb_true_iff in Hall. lia.
Qed.

Lemma succ_mod_small (idx n : Z) :
  0 <= idx < n -> n < size_modulus -> size_add idx 1 mod n = (idx + 1) mod n.
Proof. intros H1 H2. rewrite size_add_small by lia. reflexivity. Qed.

(** One step of the main pass at [idx]: the visit, then [grant] attempts;
    the flag accumulates, and the pending cursor moves just past [idx]
    when the participant is eligible and the flag is set. *)
Lemma pass_body_spec (f : alloc_ue_fn Ctx) (n v : Z) (st : pass_state)
    (m : mem Ctx) :
  0 < n < size_modulus -> n <= Z.of_nat (length (m_ues m)) ->
  forallb ue_ok (m_ues m) = true ->
  0 <= ps_idx st < n ->
  exists st' m' evs,
    pass_body f n v st m = Ok st' m' /\
    m_ues m' = m_ues m /\
    m_trace m' = m_trace m ++ EvVisit (ps_idx st) :: evs /\
    map event_shape (EvVisit (ps_idx st) :: evs) =
      step_shape (m_ues m) (ps_idx st) /\
    replay f (m_ues m) evs (m_ctx m) = Some (m_ctx m') /\
    ps_idx st' = (ps_idx st + 1) mod n /\
    ps_any_success st' = ps_any_success st || existsb is_success evs /\
    ps_next_idx st' =
      (if eligible_at (m_ues m) (ps_idx st) && ps_any_success st'
       then (ps_idx st + 1) mod n else ps_next_idx st).
Proof.
  intros Hn Hlen Hok Hidx.
  set (idx := ps_idx st) in *.
  set (m1 := mk_mem (m_ues m) (m_ctx m) (m_trace m ++ [EvVisit idx])).
  destruct (load_ue_in_bounds idx m1) as (u & Hu & Hload); [cbn; lia|].
  cbn [m_ues m1] in Hu.
  pose proof (ue_ok_weight _ _ _ Hok Hu) as Hw.
  assert (Hat : ue_at (m_ues m) idx = Some u) by (rewrite ue_at_nth by lia; exact Hu).
  unfold pass_body, bind, mark_visit. fold idx. fold m1. rewrite Hload.
  change (active u && (weight u >? 0)) with (eligible u).
  unfold step_shape, eligible_at, grant. rewrite Hat.
  destruct (eligible u) eqn:Eu.
  - destruct (attempt_loop_spec f idx u (ps_any_success st) m1)
      as (any & m2 & evs & E & Hues & Htr & Hsh & Hrp & Hany); [lia | exact Hu | exact Hw |].
    rewrite E. cbn [m_ues m_ctx m_trace m1] in Hues, Htr, Hrp.
    exists (mk_pass any (size_add idx 1 mod n)
              (if any then size_add idx 1 mod n else ps_next_idx st)), m2, evs.
    split; [destruct any; reflexivity|].
    cbn [ps_any_success ps_idx ps_next_idx map event_shape andb].
    rewrite !succ_mod_small by lia.
    repeat split; try assumption.
    + rewrite Htr, <- app_assoc. reflexivity.
    + rewrite Hsh. reflexivity.
  - exists (mk_pass (ps_any_success st) (size_add idx 1 mod n) (ps_next_idx st)), m1, [].
    cbn [ps_any_success ps_idx ps_next_idx map event_shape andb existsb
         m_ues m_ctx m_trace m1 replay Z.to_nat seq ret].
    rewrite !succ_mod_small by lia. rewrite orb_false_r.
    repeat split.
Qed.

Lemma step_shape_ineligible (ues : list ue_t) (idx : Z) (evs : list event) :
  eligible_at ues idx = false ->
  map event_shape (EvVisit idx :: evs) = step_shape ues idx -> evs = [].
Proof.
  unfold eligible_at, grant, step_shape, grant. intros He Hsh.
  assert (Hnil : map event_shape evs = []).
  { destruct (ue_at ues idx) as [u|]; [rewrite He in Hsh|];
      cbn in Hsh; congruence. }
  destruct evs; [reflexivity | discriminate].
Qed.

Lemma last_eligible_snoc (ues : list ue_t) (l : list Z) (x : Z) :
  last_eligible ues (l ++ [x]) =
  if eligible_at ues x then Some x else last_eligible ues l.
Proof.
  unfold last_eligible. rewrite filter_app. cbn [filter].
  destruct (eligible_at ues x).
  - apply last_opt_snoc.
  - rewrite app_nil_r. reflexivity.
Qed.

Lemma pass_loop_spec (f : alloc_ue_fn Ctx) (n next_idx : Z) (m : mem Ctx) :
  0 < n < size_modulus -> n <= Z.of_nat (length (m_ues m)) ->
  forallb ue_ok (m_ues m) = true ->
  exists st m' evs,
    for_loop (S (Z.to_nat n)) size_wrap 0 n (pass_body f n)
      (mk_pass false (next_idx mod n) next_idx) m = Ok st m' /\
    pass_result f n (next_idx mod n) next_idx (Z.to_nat n) m st m' evs.
Proof.
  intros Hn Hlen Hok.
  set (s := next_idx mod n).
  pose (Inv := fun (j : Z) (st : pass_state) (m' : mem Ctx) =>
    ps_idx st = (s + j) mod n /\
    exists evs, pass_result f n s next_idx (Z.to_nat j) m st m' evs).
  destruct (for_loop_inv Inv size_wrap n (pass_body f n)) with
    (d := Z.to_nat n) (lo := 0) (s := mk_pass false s next_idx) (m := m)
    as (st & m' & E & _ & evs & HR).
  - intros i Hi. apply size_wrap_small. lia.
  - intros j st m1 Hj (Hidx & evs & [Hues Htr Hsh Hrp Hany Hmoved Hkept]).
    assert (Hrange : 0 <= ps_idx st < n)
      by (rewrite Hidx; apply Z.mod_pos_bound; lia).
    destruct (pass_body_spec f n j st m1)
      as (st' & m2 & evs2 & E & Hues2 & Htr2 & Hsh2 & Hrp2 & Hidx2 & Hany2 & Hnext2);
      [lia | rewrite Hues; lia | rewrite Hues; exact Hok | exact Hrange |].
    rewrite Hues in *.
    exists st', m2. split; [exact E|]. unfold Inv. split.
    + rewrite Hidx2, Hidx, Zplus_mod_idemp_l. f_equal. lia.
    + exists (evs ++ EvVisit (ps_idx st) :: evs2).
      assert (Hsteps : steps_from n s (Z.to_nat (j + 1)) =
                       steps_from n s (Z.to_nat j) ++ [ps_idx st]).
      { replace (Z.to_nat (j + 1)) with (S (Z.to_nat j)) by lia.
        rewrite steps_from_S, Z2Nat.id, <- Hidx by lia. reflexivity. }
      constructor; rewrite ?Hsteps.
      * congruence.
      * rewrite Htr2, Htr, app_assoc. reflexivity.
      * rewrite map_app, flat_map_app, Hsh, Hsh2. cbn [flat_map].
        rewrite app_nil_r. reflexivity.
      * rewrite replay_app, Hrp. exact Hrp2.
      * rewrite existsb_app. cbn [existsb is_success]. rewrite Hany2, Hany.
        reflexivity.
      * intros Ht. rewrite last_eligible_snoc, Hnext2, Ht, andb_true_r.
        destruct (eligible_at (m_ues m) (ps_idx st)) eqn:Eel.
        -- eexists; split; reflexivity.
        -- apply Hmoved. rewrite (step_shape_ineligible _ _ _ Eel Hsh2) in Hany2.
           cbn in Hany2. rewrite orb_false_r in Hany2. congruence.
      * intros Hf. rewrite Hnext2, Hf, andb_false_r. apply Hkept.
        rewrite Hany2 in Hf. apply orb_false_iff in Hf. tauto.
  - lia.
  - lia.
  - unfold Inv. cbn [ps_idx]. split.
    + unfold s. rewrite Z.add_0_r, Zmod_mod. reflexivity.
    + exists []. constructor; cbn; try reflexivity; try discriminate.
      now rewrite app_nil_r.
  - exists st, m', evs. split; [exact E | exact HR].
Qed.

Lemma call_ok_inv (n next_idx : Z) (m : mem Ctx) :
  call_ok n next_idx m = true ->
  0 <= n < size_modulus /\ 0 <= next_idx < size_modulus /\
  n <= Z.of_nat (length (m_ues m)) /\ forallb ue_ok (m_ues m) = true.
Proof.
  unfold call_ok. rewrite !andb_true_iff. intros H. repeat split; try tauto; lia.
Qed.

(** With no eligible participant the call returns after the counting loop:
    the cursor is only normalised and the memory is untouched. *)
Lemma wrr_schedule_idle (f : alloc_ue_fn Ctx) (n next_idx : Z) (m : mem Ctx) :
  call_ok n next_idx m = true -> 0 < n -> has_eligible n m = false ->
  wrr_schedule n next_idx (Some f) m = Ok (next_idx mod n) m.
Proof.
  intros Hok Hn Hel. apply call_ok_inv in Hok. destruct Hok as (Hn' & _ & Hlen & _).
  unfold wrr_schedule.
  test_false (n =? 0).
  unfold bind. rewrite count_loop_spec by assumption.
  unfold has_eligible in Hel. apply existsb_false_filter in Hel. rewrite Hel.
  reflexivity.
Qed.

(** With an eligible participant the call is the counting loop followed by
    one full pass from [next_idx mod n]. *)
Lemma wrr_schedule_pass (f : alloc_ue_fn Ctx) (n next_idx : Z) (m : mem Ctx) :
  call_ok n next_idx m = true -> 0 < n -> has_eligible n m = true ->
  exists st m' evs,
    wrr_schedule n next_idx (Some f) m = Ok (ps_next_idx st mod n) m' /\
    pass_result f n (next_idx mod n) next_idx (Z.to_nat n) m st m' evs.
Proof.
  intros Hok Hn Hel. apply call_ok_inv in Hok.
  destruct Hok as (Hn' & _ & Hlen & Hues).
  destruct (pass_loop_spec f n next_idx m) as (st & m' & evs & E & HR);
    [lia | assumption | assumption |].
  exists st, m', evs. split; [|exact HR].
  unfold wrr_schedule.
  test_false (n =? 0).
  unfold bind. rewrite count_loop_spec by assumption.
  unfold has_eligible in Hel.
  destruct (filter eligible (participants n m)) eqn:Ef.
  - apply existsb_false_filter in Ef. congruence.
  - cbn [length]. replace (Z.of_nat (S (length l)) =? 0) with false
      by (symmetry; apply Z.eqb_neq; lia).
    rewrite E. reflexivity.
Qed.

Lemma new_events_app (m m' : mem Ctx) (evs : list event) :
  m_trace m' = m_trace m ++ evs -> new_events m m' = evs.
Proof.
  intros H. unfold new_events. rewrite H, skipn_app, skipn_all, Nat.sub_diag.
  reflexivity.
Qed.

Lemma new_events_refl (m : mem Ctx) : new_events m m = [].
Proof. apply new_events_app. now rewrite app_nil_r. Qed.

End Loops.

(** ** Traces and shapes *)

Lemma visits_shape (evs : list event) :
  visits evs = shape_visits (map event_shape evs).
Proof.
  induction evs as [|[idx|idx k res] evs IH]; cbn; [reflexivity | |];
    unfold shape_visits in IH; rewrite IH; reflexivity.
Qed.

Lemma alloc_positions_shape (evs : list event) :
  alloc_positions evs = shape_allocs (map event_shape evs).
Proof.
  induction evs as [|[idx|idx k res] evs IH]; cbn; [reflexivity | |];
    unfold shape_allocs in IH; rewrite IH; reflexivity.
Qed.

Lemma shape_visits_step (ues : list ue_t) (idx : Z) :
  shape_visits (step_shape ues idx) = [idx].
Proof.
  unfold step_shape, shape_visits. cbn. f_equal.
  induction (seq 0 (Z.to_nat (grant ues idx))); [reflexivity | exact IHl].
Qed.

Lemma shape_allocs_step (ues : list ue_t) (idx : Z) :
  shape_allocs (step_shape ues idx) = repeat idx (Z.to_nat (grant ues idx)).
Proof.
  assert (H : forall l : list nat,
             shape_allocs (map (fun k => (idx, Some (Z.of_nat k))) l) =
             repeat idx (length l)).
  { induction l; cbn; [reflexivity | now f_equal]. }
  unfold step_shape. change (shape_allocs ((idx, None) :: ?l)) with (shape_allocs l).
  rewrite H, length_seq. reflexivity.
Qed.

Lemma shape_visits_pass (ues : list ue_t) (l : list Z) :
  shape_visits (flat_map (step_shape ues) l) = l.
Proof.
  induction l as [|x l IH]; [reflexivity|].
  cbn [flat_map]. unfold shape_visits in *. rewrite flat_map_app, IH.
  fold (shape_visits (step_shape ues x)). rewrite shape_visits_step. reflexivity.
Qed.

Lemma shape_allocs_pass (ues : list ue_t) (l : list Z) :
  shape_allocs (flat_map (step_shape ues) l) = attempt_order ues l.
Proof.
  induction l as [|x l IH]; [reflexivity|].
  cbn [flat_map attempt_order]. unfold shape_allocs in *. rewrite flat_map_app, IH.
  fold (shape_allocs (step_shape ues x)). rewrite shape_allocs_step. reflexivity.
Qed.

Lemma attempts_positions (evs : list event) :
  attempts evs = Z.of_nat (length (alloc_positions evs)).
Proof.
  unfold attempts. f_equal.
  induction evs as [|[idx|idx k res] evs IH]; cbn; auto.
Qed.

Lemma attempts_at_positions (p : Z) (evs : list event) :
  attempts_at p evs = Z.of_nat (count_occ Z.eq_dec (alloc_positions evs) p).
Proof.
  unfold attempts_at. f_equal.
  induction evs as [|[idx|idx k res] evs IH]; cbn; auto.
  destruct (Z.eq_dec idx p) as [->|Hne].
  - rewrite Z.eqb_refl. cbn. now f_equal.
  - replace (idx =? p) with false by (symmetry; apply Z.eqb_neq; exact Hne).
    exact IH.
Qed.

Lemma grant_nonneg (ues : list ue_t) (idx : Z) : 0 <= grant ues idx.
Proof.
  unfold grant. destruct (ue_at ues idx) as [u|]; [|lia].
  destruct (eligible u) eqn:E; [|lia].
  unfold eligible in E. apply andb_true_iff in E. lia.
Qed.


Lemma attempt_order_count (ues : list ue_t) (l : list Z) (p : Z) :
  NoDup l -> In p l ->
  Z.of_nat (count_occ Z.eq_dec (attempt_order ues l) p) = grant ues p.
Proof.
  intros N. induction N as [|x l Hx N IH]; intros Hin; [destruct Hin|].
  cbn [attempt_order flat_map]. rewrite count_occ_app.
  fold (attempt_order ues l).
  destruct (Z.eq_dec p x) as [->|Hne].
  - rewrite count_occ_repeat_eq by reflexivity.
    assert (Hz : count_occ Z.eq_dec (attempt_order ues l) x = 0%nat).
    { apply count_occ_not_In. unfold attempt_order. rewrite in_flat_map.
      intros (y & Hy & Hrep). apply repeat_spec in Hrep. congruence. }
    rewrite Hz. pose proof (grant_nonneg ues x). lia.
  - rewrite count_occ_repeat_neq by exact Hne.
    destruct Hin as [->|Hin]; [congruence|]. apply IH, Hin.
Qed.

Lemma attempt_order_length_perm (ues : list ue_t) (l l' : list Z) :
  Permutation l l' ->
  length (attempt_order ues l) = length (attempt_order ues l').
Proof.
  unfold attempt_order. induction 1; cbn; rewrite ?length_app; lia.
Qed.

Lemma sum_weights_snoc (us : list ue_t) (u : ue_t) :
  sum_weights (us ++ [u]) = sum_weights us + (if eligible u then weight u else 0).
Proof.
  unfold sum_weights. rewrite filter_app. cbn [filter].
  induction (filter eligible us) as [|v vs IH]; cbn.
  - destruct (eligible u); cbn; lia.
  - rewrite !map_app in *. cbn in *. lia.
Qed.

Lemma attempt_order_length_range (ues : list ue_t) (k : nat) :
  (k <= length ues)%nat ->
  Z.of_nat (length (attempt_order ues (map Z.of_nat (seq 0 k)))) =
  sum_weights (firstn k ues).
Proof.
  induction k as [|k IH]; intros Hk; [reflexivity|].
  destruct (nth_error ues k) as [u|] eqn:Hu;
    [|apply nth_error_None in Hu; lia].
  rewrite seq_S, map_app, (firstn_snoc _ _ _ Hu), sum_weights_snoc.
  unfold attempt_order in *. rewrite flat_map_app, length_app, Nat2Z.inj_add, IH by lia.
  cbn [map flat_map Nat.add]. rewrite app_nil_r, repeat_length.
  pose proof (grant_nonneg ues (Z.of_nat k)) as Hg.
  rewrite Z2Nat.id by exact Hg. f_equal.
  unfold grant. rewrite ue_at_nth, Nat2Z.id, Hu by lia. reflexivity.
Qed.

(** The attempts of one full pass add up to the weights of the eligible
    participants. *)
Lemma attempt_order_total (ues : list ue_t) (n s : Z) :
  0 < n -> n <= Z.of_nat (length ues) ->
  Z.of_nat (length (attempt_order ues (traversal n s))) =
  sum_weights (firstn (Z.to_nat n) ues).
Proof.
  intros Hn Hlen.
  rewrite (attempt_order_length_perm ues _ _ (traversal_Permutation n s Hn)).
  apply attempt_order_length_range. lia.
Qed.

(** ** Relating two runs *)

Section Relational.

Context {Ctx : Type}.
Variable RM : mem Ctx -> mem Ctx -> Prop.

Lemma bind_rel {A1 A2 B1 B2 : Type} (RA : A1 -> A2 -> Prop) (RB : B1 -> B2 -> Prop)
    (c1 : @M Ctx A1) (c2 : @M Ctx A2) (k1 : A1 -> M B1) (k2 : A2 -> M B2)
    (m1 m2 : mem Ctx) :
  rel_outcome RM RA (c1 m1) (c2 m2) ->
  (forall a1 a2 m1' m2', RA a1 a2 -> RM m1' m2' ->
     rel_outcome RM RB (k1 a1 m1') (k2 a2 m2')) ->
  rel_outcome RM RB (bind c1 k1 m1) (bind c2 k2 m2).
Proof.
  intros Hc Hk. unfold bind.
  destruct (c1 m1) as [a1 m1'|e1], (c2 m2) as [a2 m2'|e2]; cbn in Hc;
    try contradiction.
  - destruct Hc as [Ha Hm]. apply Hk; assumption.
  - exact Hc.
Qed.

Lemma for_loop_rel {S1 S2 : Type} (RS : S1 -> S2 -> Prop) (wrap : Z -> Z) (hi : Z)
    (body1 : Z -> S1 -> @M Ctx S1) (body2 : Z -> S2 -> @M Ctx S2) :
  (forall i s1 s2 m1 m2, RS s1 s2 -> RM m1 m2 ->
     rel_outcome RM RS (body1 i s1 m1) (body2 i s2 m2)) ->
  forall (fuel : nat) (i : Z) s1 s2 m1 m2, RS s1 s2 -> RM m1 m2 ->
    rel_outcome RM RS (for_loop fuel wrap i hi body1 s1 m1)
                      (for_loop fuel wrap i hi body2 s2 m2).
Proof.
  intros Hbody. induction fuel as [|fuel IH]; intros i s1 s2 m1 m2 Hs Hm.
  - reflexivity.
  - cbn [for_loop]. destruct (i <? hi).
    + apply (bind_rel RS RS); [apply Hbody; assumption|].
      intros a1 a2 m1' m2' Ha Hm'. apply IH; assumption.
    + split; assumption.
Qed.

End Relational.

(** ** The cursor is only used modulo [n] *)

Section Normalisation.

Context {Ctx : Type}.

Lemma rel_outcome_refl {A : Type} (o : @outcome Ctx A) : rel_outcome eq eq o o.
Proof. destruct o; cbn; auto. Qed.

Lemma pass_body_alike (f : alloc_ue_fn Ctx) (n v : Z) (st1 st2 : pass_state)
    (m1 m2 : mem Ctx) :
  pass_alike n st1 st2 -> m1 = m2 ->
  rel_outcome eq (pass_alike n) (pass_body f n v st1 m1) (pass_body f n v st2 m2).
Proof.
  destruct st1 as [a1 i1 x1], st2 as [a2 i2 x2]. unfold pass_alike.
  cbn [ps_idx ps_any_success ps_next_idx].
  intros (-> & -> & Hx) ->. unfold pass_body.
  cbn [ps_idx ps_any_success ps_next_idx].
  apply (bind_rel eq eq (pass_alike n)); [apply rel_outcome_refl|].
  intros _ _ m1 m1' _ <-.
  apply (bind_rel eq eq (pass_alike n)); [apply rel_outcome_refl|].
  intros u u' m2' m2'' <- <-.
  apply (bind_rel eq (pass_alike n) (pass_alike n)).
  - destruct (active u && (weight u >? 0)).
    + apply (bind_rel eq eq (pass_alike n)); [apply rel_outcome_refl|].
      intros any any' m3 m3' <- <-.
      destruct any; cbn; unfold pass_alike; cbn; auto.
    + cbn. unfold pass_alike. cbn. auto.
  - intros st1 st2 m3 m3' (Ha & Hi & Hn) <-. cbn. unfold pass_alike. cbn. auto.
Qed.

Lemma wrr_schedule_mod (f : option (alloc_ue_fn Ctx)) (n next_idx : Z) (m : mem Ctx) :
  wrr_schedule n (next_idx mod n) f m = wrr_schedule n next_idx f m.
Proof.
  unfold wrr_schedule. destruct (n =? 0); [reflexivity|].
  destruct f as [f|]; [|reflexivity].
  unfold bind. destruct (for_loop _ _ _ _ count_body _ _) as [c m'|e]; [|reflexivity].
  destruct (c =? 0).
  - unfold ret. now rewrite Zmod_mod.
  - pose proof (for_loop_rel eq (pass_alike n) size_wrap n
                  (pass_body f n) (pass_body f n) (pass_body_alike f n)
                  (S (Z.to_nat n)) 0
                  (mk_pass false (next_idx mod n mod n) (next_idx mod n))
                  (mk_pass false (next_idx mod n) next_idx) m' m') as H.
    destruct (for_loop _ _ _ _ _ (mk_pass false (next_idx mod n mod n) _) _)
      as [st1 m1|e1],
      (for_loop _ _ _ _ _ (mk_pass false (next_idx mod n) next_idx) _)
      as [st2 m2|e2]; cbn in H.
    + destruct H as [(_ & _ & Hx) ->].
      * unfold pass_alike. cbn. now rewrite !Zmod_mod.
      * reflexivity.
      * unfold ret. now rewrite Hx.
    + exfalso. apply H; [unfold pass_alike; cbn; now rewrite !Zmod_mod | reflexivity].
    + exfalso. apply H; [unfold pass_alike; cbn; now rewrite !Zmod_mod | reflexivity].
    + f_equal. apply H; [unfold pass_alike; cbn; now rewrite !Zmod_mod | reflexivity].
Qed.

End Normalisation.

(** ** Runs on arrays that differ only in identifiers *)

Lemma same_sched_fields (u1 u2 : ue_t) :
  same_sched u1 u2 = true -> weight u1 = weight u2 /\ active u1 = active u2.
Proof.
  unfold same_sched. rewrite andb_true_iff, Z.eqb_eq. intros [Hw Ha].
  split; [exact Hw | apply eqb_prop, Ha].
Qed.

Lemma same_schedule_nth (us1 us2 : list ue_t) (k : nat) :
  same_schedule us1 us2 = true ->
  match nth_error us1 k, nth_error us2 k with
  | Some u1, Some u2 => same_sched u1 u2 = true
  | None, None => True
  | _, _ => False
  end.
Proof.
  revert us2 k. induction us1 as [|u1 r1 IH]; intros [|u2 r2] k H;
    cbn in H; try discriminate.
  - destruct k; exact I.
  - apply andb_true_iff in H. destruct H as [Hu Hr].
    destruct k as [|k]; cbn; [exact Hu | apply IH, Hr].
Qed.

Section Alike.

Context {Ctx : Type}.
Variables (f : alloc_ue_fn Ctx) (t1 t2 : list event).
Hypothesis f_blind : id_blind f.

Let RM := @mem_alike Ctx t1 t2.

Lemma mem_alike_log (m1 m2 : mem Ctx) (e : event) (c1 c2 : Ctx) :
  RM m1 m2 -> c1 = c2 ->
  RM (mk_mem (m_ues m1) c1 (m_trace m1 ++ [e]))
     (mk_mem (m_ues m2) c2 (m_trace m2 ++ [e])).
Proof.
  intros (_ & Hu & evs & H1 & H2) <-. repeat split; cbn; [exact Hu|].
  exists (evs ++ [e]). rewrite H1, H2, !app_assoc. split; reflexivity.
Qed.

Lemma load_ue_alike (idx : Z) (m1 m2 : mem Ctx) :
  RM m1 m2 ->
  rel_outcome RM (fun u1 u2 => same_sched u1 u2 = true)
    (load_ue idx m1) (load_ue idx m2).
Proof.
  intros HR. pose proof HR as (_ & Hu & _). unfold load_ue.
  destruct (idx <? 0); [reflexivity|].
  pose proof (same_schedule_nth _ _ (Z.to_nat idx) Hu) as Hn.
  destruct (nth_error (m_ues m1) _), (nth_error (m_ues m2) _); cbn;
    try contradiction; auto.
Qed.

Lemma call_alloc_alike (idx k : Z) (m1 m2 : mem Ctx) :
  RM m1 m2 ->
  rel_outcome RM eq (call_alloc f idx k m1) (call_alloc f idx k m2).
Proof.
  intros HR. pose proof HR as (Hc & Hu & _). unfold call_alloc.
  destruct (idx <? 0); [reflexivity|].
  pose proof (same_schedule_nth _ _ (Z.to_nat idx) Hu) as Hn.
  destruct (nth_error (m_ues m1) _) as [u1|], (nth_error (m_ues m2) _) as [u2|];
    cbn; try contradiction; auto.
  rewrite (f_blind idx u1 u2 (m_ctx m1) Hn), <- Hc.
  destruct (f idx u2 (m_ctx m1)) as [res c']. cbn. split; [reflexivity|].
  apply mem_alike_log; [exact HR | reflexivity].
Qed.

Lemma count_body_alike (i : Z) (c1 c2 : Z) (m1 m2 : mem Ctx) :
  c1 = c2 -> RM m1 m2 ->
  rel_outcome RM eq (count_body i c1 m1) (count_body i c2 m2).
Proof.
  intros <- HR. unfold count_body.
  apply (bind_rel RM (fun u1 u2 => same_sched u1 u2 = true) eq);
    [apply load_ue_alike, HR|].
  intros u1 u2 m1' m2' Hu HR'. apply same_sched_fields in Hu.
  destruct Hu as [-> ->].
  destruct (active u2 && (weight u2 >? 0)); cbn; auto.
Qed.

Lemma attempt_body_alike (idx k : Z) (a1 a2 : bool) (m1 m2 : mem Ctx) :
  a1 = a2 -> RM m1 m2 ->
  rel_outcome RM eq (attempt_body f idx k a1 m1) (attempt_body f idx k a2 m2).
Proof.
  intros <- HR. unfold attempt_body.
  apply (bind_rel RM eq eq); [apply call_alloc_alike, HR|].
  intros r1 r2 m1' m2' <- HR'. destruct r1; cbn; auto.
Qed.

Lemma pass_body_blind (n v : Z) (st1 st2 : pass_state) (m1 m2 : mem Ctx) :
  st1 = st2 -> RM m1 m2 ->
  rel_outcome RM eq (pass_body f n v st1 m1) (pass_body f n v st2 m2).
Proof.
  intros <- HR. unfold pass_body.
  apply (bind_rel RM eq eq).
  { cbn. split; [reflexivity|]. apply mem_alike_log; [exact HR | apply HR]. }
  intros _ _ m1' m2' _ HR1.
  apply (bind_rel RM (fun u1 u2 => same_sched u1 u2 = true) eq);
    [apply load_ue_alike, HR1|].
  intros u1 u2 m1'' m2'' Hu HR2. apply same_sched_fields in Hu.
  destruct Hu as [-> ->].
  apply (bind_rel RM eq eq).
  - destruct (active u2 && (weight u2 >? 0)); [|cbn; auto].
    apply (bind_rel RM eq eq).
    + apply for_loop_rel; [|reflexivity|exact HR2].
      intros i a1 a2 m3 m4. apply attempt_body_alike.
    + intros any any' m3 m4 <- HR3. destruct any; cbn; auto.
  - intros s1 s2 m3 m4 <- HR3. cbn. auto.
Qed.

Lemma wrr_schedule_blind (n next_idx : Z) (m1 m2 : mem Ctx) :
  RM m1 m2 ->
  rel_outcome RM eq (wrr_schedule n next_idx (Some f) m1)
                    (wrr_schedule n next_idx (Some f) m2).
Proof.
  intros HR. unfold wrr_schedule. destruct (n =? 0); [cbn; auto|].
  apply (bind_rel RM eq eq).
  - apply for_loop_rel; [|reflexivity|exact HR].
    intros i c1 c2 m3 m4. apply count_body_alike.
  - intros c c' m1' m2' <- HR1. destruct (c =? 0); [cbn; auto|].
    apply (bind_rel RM eq eq).
    + apply for_loop_rel; [|reflexivity|exact HR1].
      intros i s1 s2 m3 m4. apply pass_body_blind.
    + intros s1 s2 m3 m4 <- HR2. cbn. auto.
Qed.

End Alike.

(** ** From the shape of a pass to its observations *)




Lemma steps_from_nth (n s : Z) (cnt j : nat) :
  (j < cnt)%nat ->
  nth_error (steps_from n s cnt) j = Some ((s + Z.of_nat j) mod n).
Proof.
  intros Hj. unfold steps_from.
  rewrite nth_error_map, nth_error_seq.
  replace (j <? cnt)%nat with true by (symmetry; apply Nat.ltb_lt; exact Hj).
  reflexivity.
Qed.

Lemma idle_grant {Ctx} (n : Z) (m : mem Ctx) (p : Z) :
  has_eligible n m = false -> 0 <= p < n -> grant (m_ues m) p = 0.
Proof.
  intros Hel Hp. unfold grant. rewrite ue_at_nth by lia.
  destruct (nth_error (m_ues m) (Z.to_nat p)) as [u|] eqn:Hu; [|reflexivity].
  destruct (eligible u) eqn:Eu; [|reflexivity].
  exfalso. unfold has_eligible, participants in Hel.
  assert (Hin : In u (firstn (Z.to_nat n) (m_ues m))).
  { apply (nth_error_In _ (Z.to_nat p)). rewrite nth_error_firstn.
    replace (Z.to_nat p <? Z.to_nat n)%nat with true
      by (symmetry; apply Nat.ltb_lt; lia).
    exact Hu. }
  assert (Hex : existsb eligible (firstn (Z.to_nat n) (m_ues m)) = true)
    by (apply existsb_exists; exists u; auto).
  congruence.
Qed.

Lemma idle_sum_weights {Ctx} (n : Z) (m : mem Ctx) :
  has_eligible n m = false -> sum_weights (participants n m) = 0.
Proof.
  unfold has_eligible, sum_weights. intros H.
  apply existsb_false_filter in H. rewrite H. reflexivity.
Qed.

(** Attempt counts of a full pass: the total is the sum of the weights of
    the eligible participants, and each position gets its grant. *)
Lemma pass_counts {Ctx} (f : alloc_ue_fn Ctx) (n next_idx : Z) (m : mem Ctx)
    (st : pass_state) (m' : mem Ctx) (evs : list event) :
  0 < n -> n <= Z.of_nat (length (m_ues m)) ->
  pass_result f n (next_idx mod n) next_idx (Z.to_nat n) m st m' evs ->
  attempts evs = sum_weights (participants n m) /\
  (forall p, 0 <= p < n -> attempts_at p evs = grant (m_ues m) p).
Proof.
  intros Hn Hlen HR. pose proof (pr_shape _ _ _ _ _ _ _ _ _ HR) as Hsh.
  fold (traversal n (next_idx mod n)) in Hsh.
  assert (Hpos : alloc_positions evs =
                 attempt_order (m_ues m) (traversal n (next_idx mod n)))
    by (rewrite alloc_positions_shape, Hsh; apply shape_allocs_pass).
  split.
  - rewrite attempts_positions, Hpos. apply attempt_order_total; assumption.
  - intros p Hp. rewrite attempts_at_positions, Hpos.
    apply attempt_order_count.
    + apply steps_from_NoDup. lia.
    + apply traversal_In; assumption.
Qed.

(** * Properties of [wrr_schedule] *)



(** C2: in a call with [n > 0] and a callback, the number of invocations of
    the callback is the sum of the weights of the eligible participants,
    whatever the outcomes; an eligible participant is attempted [weight]
    times and an ineligible one is not attempted.  The logged attempts are
    the invocations of the callback: applying [f] along them, from the
    context of the call, gives the logged outcomes and the final context. *)
Theorem wrr_attempt_counts {Ctx} (f : alloc_ue_fn Ctx)
    (n next_idx : Z) (m : mem Ctx) :
  call_ok n next_idx m = true -> 0 < n ->
  exists r m',
    wrr_schedule n next_idx (Some f) m = Ok r m' /\
    replay f (m_ues m) (new_events m m') (m_ctx m) = Some (m_ctx m') /\
    attempts (new_events m m') = sum_weights (participants n m) /\
    (forall p u, 0 <= p < n -> ue_at (m_ues m) p = Some u ->
       attempts_at p (new_events m m') = if eligible u then weight u else 0).
Proof.
  intros Hok Hn. destruct (has_eligible n m) eqn:Hel.
  - destruct (wrr_schedule_pass f n next_idx m Hok Hn Hel)
      as (st & m' & evs & E & HR).
    apply call_ok_inv in Hok. destruct Hok as (_ & _ & Hlen & _).
    destruct (pass_counts f n next_idx m st m' evs Hn Hlen HR) as [Htot Hat].
    exists (ps_next_idx st mod n), m'. split; [exact E|].
    rewrite (new_events_app _ _ _ (pr_trace _ _ _ _ _ _ _ _ _ HR)).
    split; [exact (pr_replay _ _ _ _ _ _ _ _ _ HR)|].
    split; [exact Htot|].
    intros p u Hp Hu. rewrite (Hat p Hp). unfold grant. rewrite Hu. reflexivity.
  - exists (next_idx mod n), m. split; [apply wrr_schedule_idle; assumption|].
    rewrite new_events_refl, idle_sum_weights by exact Hel.
    split; [reflexivity|]. split; [reflexivity|].
    intros p u Hp Hu. pose proof (idle_grant n m p Hel Hp) as Hg.
    unfold grant in Hg. rewrite Hu in Hg. rewrite Hg. reflexivity.
Qed.

Lemma wrr_attempt_counts_witness :
  exists r m',
    wrr_schedule 3 5 (Some demo_alloc_fn) m_demo = Ok r m' /\
    replay demo_alloc_fn (m_ues m_demo) (new_events m_demo m') (m_ctx m_demo)
      = Some (m_ctx m') /\
    attempts (new_events m_demo m') = sum_weights (participants 3 m_demo) /\
    (forall p u, 0 <= p < 3 -> ue_at (m_ues m_demo) p = Some u ->
       attempts_at p (new_events m_demo m') = if eligible u then weight u else 0).
Proof.
  apply (wrr_attempt_counts demo_alloc_fn 3 5 m_demo); [reflexivity | lia].
Defined.

(** C3, as stated for every call with [n > 0] and a callback, fails: with
    no eligible participant the call returns after the counting loop and
    no step of the pass is made. *)
Lemma wrr_single_pass_fails_when_idle :
  call_ok 2 0 m_idle = true /\ 0 < 2 /\
  ~ (exists r m',
       wrr_schedule 2 0 (Some demo_alloc_fn) m_idle = Ok r m' /\
       length (visits (new_events m_idle m')) = Z.to_nat 2 /\
       (forall j, 0 <= j < 2 ->
          nth_error (visits (new_events m_idle m')) (Z.to_nat j) =
          Some ((0 mod 2 + j) mod 2)) /\
       NoDup (visits (new_events m_idle m')) /\
       (forall p, In p (visits (new_events m_idle m')) <-> 0 <= p < 2) /\
       map event_shape (new_events m_idle m') =
         flat_map (step_shape (m_ues m_idle)) (visits (new_events m_idle m')) /\
       alloc_positions (new_events m_idle m') =
         attempt_order (m_ues m_idle) (visits (new_events m_idle m'))).
Proof.
  split; [reflexivity|]. split; [lia|].
  intros (r & m' & E & Hlen & _). vm_compute in E. injection E as <- <-.
  vm_compute in Hlen. discriminate Hlen.
Qed.

(** C3 (amended): in a call with [n > 0], a callback and an eligible
    participant, exactly one pass of [n] steps is made: step [j] is at
    position [(next_idx mod n + j) mod n], whether or not the participant
    there is eligible, every position of [0 .. n-1] is visited exactly once,
    and the attempts follow the visits in that order. *)
Theorem wrr_single_pass {Ctx} (f : alloc_ue_fn Ctx)
    (n next_idx : Z) (m : mem Ctx) :
  call_ok n next_idx m = true -> 0 < n -> has_eligible n m = true ->
  exists r m',
    wrr_schedule n next_idx (Some f) m = Ok r m' /\
    length (visits (new_events m m')) = Z.to_nat n /\
    (forall j, 0 <= j < n ->
       nth_error (visits (new_events m m')) (Z.to_nat j) =
       Some ((next_idx mod n + j) mod n)) /\
    NoDup (visits (new_events m m')) /\
    (forall p, In p (visits (new_events m m')) <-> 0 <= p < n) /\
    map event_shape (new_events m m') =
      flat_map (step_shape (m_ues m)) (visits (new_events m m')) /\
    alloc_positions (new_events m m') =
      attempt_order (m_ues m) (visits (new_events m m')).
Proof.
  intros Hok Hn Hel.
  destruct (wrr_schedule_pass f n next_idx m Hok Hn Hel)
    as (st & m' & evs & E & HR).
  exists (ps_next_idx st mod n), m'. split; [exact E|].
  rewrite (new_events_app _ _ _ (pr_trace _ _ _ _ _ _ _ _ _ HR)).
  pose proof (pr_shape _ _ _ _ _ _ _ _ _ HR) as Hsh.
  assert (Hv : visits evs = traversal n (next_idx mod n))
    by (rewrite visits_shape, Hsh; apply shape_visits_pass).
  rewrite Hv.
  split; [apply steps_from_length|].
  split.
  { intros j Hj. unfold traversal. rewrite steps_from_nth by lia.
    rewrite Z2Nat.id by lia. reflexivity. }
  split; [apply steps_from_NoDup; lia|].
  split; [intros p; apply traversal_In, Hn|].
  split; [exact Hsh|].
  rewrite alloc_positions_shape, Hsh. apply shape_allocs_pass.
Qed.

Lemma wrr_single_pass_witness :
  exists r m',
    wrr_schedule 3 5 (Some demo_alloc_fn) m_demo = Ok r m' /\
    length (visits (new_events m_demo m')) = Z.to_nat 3 /\
    (forall j, 0 <= j < 3 ->
       nth_error (visits (new_events m_demo m')) (Z.to_nat j) =
       Some ((5 mod 3 + j) mod 3)) /\
    NoDup (visits (new_events m_demo m')) /\
    (forall p, In p (visits (new_events m_demo m')) <-> 0 <= p < 3) /\
    map event_shape (new_events m_demo m') =
      flat_map (step_shape (m_ues m_demo)) (visits (new_events m_demo m')) /\
    alloc_positions (new_events m_demo m') =
      attempt_order (m_ues m_demo) (visits (new_events m_demo m')).
Proof.
  apply (wrr_single_pass demo_alloc_fn 3 5 m_demo);
    [reflexivity | lia | reflexivity].
Defined.

(** C4: in a call with [n > 0], a callback and an eligible participant, if
    no attempt succeeds the returned index is [next_idx mod n], although
    every eligible participant was attempted [weight] times.  The logged
    attempts are the invocations of the callback: applying [f] along them,
    from the context of the call, gives the logged outcomes and the final
    context. *)
Theorem wrr_cursor_without_success {Ctx} (f : alloc_ue_fn Ctx)
    (n next_idx : Z) (m : mem Ctx) :
  call_ok n next_idx m = true -> 0 < n -> has_eligible n m = true ->
  exists r m',
    wrr_schedule n next_idx (Some f) m = Ok r m' /\
    replay f (m_ues m) (new_events m m') (m_ctx m) = Some (m_ctx m') /\
    attempts (new_events m m') = sum_weights (participants n m) /\
    (forall p u, 0 <= p < n -> ue_at (m_ues m) p = Some u ->
       attempts_at p (new_events m m') = if eligible u then weight u else 0) /\
    (existsb is_success (new_events m m') = false -> r = next_idx mod n).
Proof.
  intros Hok Hn Hel.
  destruct (wrr_schedule_pass f n next_idx m Hok Hn Hel)
    as (st & m' & evs & E & HR).
  apply call_ok_inv in Hok. destruct Hok as (_ & _ & Hlen & _).
  destruct (pass_counts f n next_idx m st m' evs Hn Hlen HR) as [Htot Hat].
  exists (ps_next_idx st mod n), m'. split; [exact E|].
  destruct HR as [Hues Htr Hsh Hrp Hany Hmoved Hkept].
  rewrite (new_events_app _ _ _ Htr). split; [exact Hrp|].
  split; [exact Htot|]. split.
  - intros p u Hp Hu. rewrite (Hat p Hp). unfold grant. rewrite Hu. reflexivity.
  - intros Hs. rewrite Hkept; [reflexivity | congruence].
Qed.

Lemma wrr_cursor_without_success_witness :
  exists r m',
    wrr_schedule 3 5 (Some late_alloc) (mk_mem demo_ues 100 []) = Ok r m' /\
    replay late_alloc demo_ues (new_events (mk_mem demo_ues 100 []) m') 100
      = Some (m_ctx m') /\
    attempts (new_events (mk_mem demo_ues 100 []) m') =
      sum_weights (participants 3 (mk_mem demo_ues 100 [])) /\
    (forall p u, 0 <= p < 3 -> ue_at demo_ues p = Some u ->
       attempts_at p (new_events (mk_mem demo_ues 100 []) m') =
       if eligible u then weight u else 0) /\
    (existsb is_success (new_events (mk_mem demo_ues 100 []) m') = false ->
     r = 5 mod 3).
Proof.
  apply (wrr_cursor_without_success late_alloc 3 5 (mk_mem demo_ues 100 []));
    [reflexivity | lia | reflexivity].
Defined.

(** At that input no attempt succeeds, the seven attempts each took one
    step of the countdown, and the cursor is the normalised start. *)
Example scenario_no_success :
  match wrr_schedule 3 5 (Some late_alloc) (mk_mem demo_ues 100 []) with
  | Ok r m' =>
      r = 2 /\ m_ctx m' = 93 /\
      existsb is_success (new_events (mk_mem demo_ues 100 []) m') = false
  | Fault _ => False
  end.
Proof. vm_compute. repeat split. Qed.

(** C5: in a call with [n > 0] and a callback, if no participant is
    eligible the function returns [next_idx mod n] and the callback is not
    invoked: the memory, context and trace included, is as before. *)
Theorem wrr_no_eligible {Ctx} (f : alloc_ue_fn Ctx)
    (n next_idx : Z) (m : mem Ctx) :
  call_ok n next_idx m = true -> 0 < n -> has_eligible n m = false ->
  exists m',
    wrr_schedule n next_idx (Some f) m = Ok (next_idx mod n) m' /\
    attempts (new_events m m') = 0 /\
    m' = m.
Proof.
  intros Hok Hn Hel. exists m. split; [apply wrr_schedule_idle; assumption|].
  rewrite new_events_refl. split; reflexivity.
Qed.

Lemma wrr_no_eligible_witness :
  exists m',
    wrr_schedule 2 7 (Some demo_alloc_fn) m_idle = Ok (7 mod 2) m' /\
    attempts (new_events m_idle m') = 0 /\
    m' = m_idle.
Proof.
  apply (wrr_no_eligible demo_alloc_fn 2 7 m_idle);
    [reflexivity | lia | reflexivity].
Defined.

(** C6: with [n = 0], and with a null callback, [wrr_schedule] returns 0
    at once, whatever the other arguments, and the callback is not invoked:
    the memory is returned as it was. *)
Theorem wrr_degenerate {Ctx} (f : option (alloc_ue_fn Ctx))
    (n next_idx : Z) (m : mem Ctx) :
  wrr_schedule 0 next_idx f m = Ok 0 m /\
  wrr_schedule n next_idx None m = Ok 0 m /\
  attempts (new_events m m) = 0.
Proof.
  split; [reflexivity|]. split.
  - unfold wrr_schedule. destruct (n =? 0); reflexivity.
  - unfold attempts. now rewrite new_events_refl.
Qed.

(** Every well-formed call returns; the array is as before, the trace is
    extended by the events of the call, the context is what the logged
    invocations of the callback made of it, and the result is an index. *)
Lemma wrr_schedule_total {Ctx} (f : option (alloc_ue_fn Ctx))
    (n next_idx : Z) (m : mem Ctx) :
  call_ok n next_idx m = true ->
  exists r m' evs,
    wrr_schedule n next_idx f m = Ok r m' /\
    m_ues m' = m_ues m /\
    m_trace m' = m_trace m ++ evs /\
    match f with
    | Some g => replay g (m_ues m) evs (m_ctx m) = Some (m_ctx m')
    | None => evs = [] /\ m_ctx m' = m_ctx m
    end /\
    (0 < n -> 0 <= r < n) /\ (n = 0 -> r = 0).
Proof.
  intros Hok. pose proof (call_ok_inv _ _ _ Hok) as (Hn & _ & _ & _).
  destruct (Z.eq_dec n 0) as [->|Hn0].
  { exists 0, m, []. rewrite app_nil_r.
    repeat split; try lia. destruct f; cbn; auto. }
  assert (Hpos : 0 < n) by lia.
  destruct f as [g|].
  - destruct (has_eligible n m) eqn:Hel.
    + destruct (wrr_schedule_pass g n next_idx m Hok Hpos Hel)
        as (st & m' & evs & E & [Hues Htr Hsh Hrp Hany Hmoved Hkept]).
      exists (ps_next_idx st mod n), m', evs.
      repeat split; try assumption; try lia; apply Z.mod_pos_bound; lia.
    + exists (next_idx mod n), m, []. rewrite app_nil_r.
      split; [apply wrr_schedule_idle; assumption|].
      repeat split; try lia; apply Z.mod_pos_bound; lia.
  - exists 0, m, []. rewrite app_nil_r. unfold wrr_schedule.
    destruct (n =? 0); repeat split; lia.
Qed.

Lemma call_ok_cursor {Ctx} (n next_idx r : Z) (m : mem Ctx) :
  call_ok n next_idx m = true -> 0 <= r < n -> call_ok n r m = true.
Proof.
  intros Hok Hr. apply call_ok_inv in Hok. destruct Hok as (Hn & _ & Hlen & Hues).
  unfold call_ok. rewrite Hues, !andb_true_iff. repeat split; lia.
Qed.

(** C7: every well-formed call returns an index: in [0 .. n-1] when
    [n > 0], and 0 when [n = 0]; any [next_idx] is accepted, and the call
    behaves as the call at [next_idx mod n]. *)
Theorem wrr_valid_index {Ctx} (f : option (alloc_ue_fn Ctx))
    (n next_idx : Z) (m : mem Ctx) :
  call_ok n next_idx m = true ->
  exists r m',
    wrr_schedule n next_idx f m = Ok r m' /\
    (0 < n -> 0 <= r < n) /\
    (n = 0 -> r = 0) /\
    wrr_schedule n (next_idx mod n) f m = Ok r m'.
Proof.
  intros Hok.
  destruct (wrr_schedule_total f n next_idx m Hok)
    as (r & m' & evs & E & _ & _ & _ & Hr & H0).
  exists r, m'. repeat split; try assumption.
  - apply Hr. assumption.
  - apply Hr. assumption.
  - rewrite wrr_schedule_mod. exact E.
Qed.

Lemma wrr_valid_index_witness :
  exists r m',
    wrr_schedule 3 18446744073709551615 (Some demo_alloc_fn) m_demo = Ok r m' /\
    (0 < 3 -> 0 <= r < 3) /\
    (3 = 0 -> r = 0) /\
    wrr_schedule 3 (18446744073709551615 mod 3) (Some demo_alloc_fn) m_demo
      = Ok r m'.
Proof.
  apply (wrr_valid_index (Some demo_alloc_fn) 3 18446744073709551615 m_demo).
  reflexivity.
Defined.

(** C8: a call does not change any participant record: the array after the
    call is the array before it; beyond the result, the only effects are
    the invocations of the callback, which extend the trace and thread the
    context. *)
Theorem wrr_frame {Ctx} (f : option (alloc_ue_fn Ctx))
    (n next_idx : Z) (m : mem Ctx) :
  call_ok n next_idx m = true ->
  exists r m',
    wrr_schedule n next_idx f m = Ok r m' /\
    m_ues m' = m_ues m /\
    m_trace m' = m_trace m ++ new_events m m' /\
    match f with
    | Some g => replay g (m_ues m) (new_events m m') (m_ctx m) = Some (m_ctx m')
    | None => new_events m m' = [] /\ m_ctx m' = m_ctx m
    end.
Proof.
  intros Hok.
  destruct (wrr_schedule_total f n next_idx m Hok)
    as (r & m' & evs & E & Hues & Htr & Hrp & _).
  exists r, m'. rewrite (new_events_app _ _ _ Htr). auto.
Qed.

Lemma wrr_frame_witness :
  exists r m',
    wrr_schedule 3 5 (Some demo_alloc_fn) m_demo = Ok r m' /\
    m_ues m' = m_ues m_demo /\
    m_trace m' = m_trace m_demo ++ new_events m_demo m' /\
    replay demo_alloc_fn (m_ues m_demo) (new_events m_demo m') (m_ctx m_demo)
      = Some (m_ctx m').
Proof.
  apply (wrr_frame (Some demo_alloc_fn) 3 5 m_demo). reflexivity.
Defined.

(** C9: with no eligible participant and [n > 0], scheduling again from
    the returned cursor returns the same cursor. *)
Theorem wrr_idle_idempotent {Ctx} (f : option (alloc_ue_fn Ctx))
    (n next_idx : Z) (m : mem Ctx) :
  call_ok n next_idx m = true -> 0 < n -> has_eligible n m = false ->
  exists r m',
    wrr_schedule n next_idx f m = Ok r m' /\
    wrr_schedule n r f m' = Ok r m'.
Proof.
  intros Hok Hn Hel. destruct f as [g|].
  - assert (Hr : 0 <= next_idx mod n < n) by (apply Z.mod_pos_bound; lia).
    exists (next_idx mod n), m. split; [apply wrr_schedule_idle; assumption|].
    rewrite wrr_schedule_idle;
      [| apply (call_ok_cursor n next_idx); assumption | assumption | assumption].
    rewrite Zmod_mod. reflexivity.
  - exists 0, m. unfold wrr_schedule.
    test_false (n =? 0).
    split; reflexivity.
Qed.

Lemma wrr_idle_idempotent_witness :
  exists r m',
    wrr_schedule 2 7 (Some demo_alloc_fn) m_idle = Ok r m' /\
    wrr_schedule 2 r (Some demo_alloc_fn) m' = Ok r m'.
Proof.
  apply (wrr_idle_idempotent (Some demo_alloc_fn) 2 7 m_idle);
    [reflexivity | lia | reflexivity].
Defined.

(** C10: the result and the attempts do not depend on the identifiers: for
    two arrays of equal length that agree on [weight] and [active] at every
    position, and a callback that does not depend on the identifier, the
    two calls return the same index, make the same visits and attempts with
    the same outcomes in the same order, and leave the same context. *)
Theorem wrr_id_noninterference {Ctx} (f : alloc_ue_fn Ctx)
    (n next_idx : Z) (m1 m2 : mem Ctx) :
  id_blind f ->
  same_schedule (m_ues m1) (m_ues m2) = true ->
  m_ctx m1 = m_ctx m2 ->
  call_ok n next_idx m1 = true ->
  exists r m1' m2',
    wrr_schedule n next_idx (Some f) m1 = Ok r m1' /\
    wrr_schedule n next_idx (Some f) m2 = Ok r m2' /\
    new_events m1 m1' = new_events m2 m2' /\
    m_ctx m1' = m_ctx m2'.
Proof.
  intros Hf Hues Hctx Hok.
  destruct (wrr_schedule_total (Some f) n next_idx m1 Hok)
    as (r & m1' & _ & E1 & _).
  assert (HR : mem_alike (m_trace m1) (m_trace m2) m1 m2).
  { split; [exact Hctx|]. split; [exact Hues|].
    exists []. now rewrite !app_nil_r. }
  pose proof (wrr_schedule_blind f (m_trace m1) (m_trace m2) Hf n next_idx m1 m2 HR)
    as Hrel.
  rewrite E1 in Hrel.
  destruct (wrr_schedule n next_idx (Some f) m2) as [r2 m2'|e]; cbn in Hrel;
    [|contradiction].
  destruct Hrel as (<- & Hc & _ & evs & Ht1 & Ht2).
  exists r, m1', m2'. repeat split; try assumption.
  rewrite (new_events_app _ _ _ Ht1), (new_events_app _ _ _ Ht2). reflexivity.
Qed.

Lemma wrr_id_noninterference_witness :
  exists r m1' m2',
    wrr_schedule 3 4 (Some alternating_alloc) (mk_mem demo_ues 0 []) = Ok r m1' /\
    wrr_schedule 3 4 (Some alternating_alloc) (mk_mem renamed_ues 0 [EvVisit 9])
      = Ok r m2' /\
    new_events (mk_mem demo_ues 0 []) m1' =
      new_events (mk_mem renamed_ues 0 [EvVisit 9]) m2' /\
    m_ctx m1' = m_ctx m2'.
Proof.
  apply (wrr_id_noninterference alternating_alloc 3 4
           (mk_mem demo_ues 0 []) (mk_mem renamed_ues 0 [EvVisit 9]));
    [intros idx u1 u2 c _; reflexivity | reflexivity | reflexivity | reflexivity].
Defined.

(** * Further properties *)

(** ** Where the cursor can end *)

Lemma last_opt_In {A} (l : list A) (x : A) : last_opt l = Some x -> In x l.
Proof.
  induction l as [|y l IH]; cbn; [discriminate|].
  destruct l as [|z l]; [intros [= ->]; now left | intros H; right; exact (IH H)].
Qed.

Lemma last_opt_some {A} (l : list A) : l <> [] -> exists x, last_opt l = Some x.
Proof.
  induction l as [|y l IH]; [congruence|]. intros _.
  destruct l as [|z l]; [exists y; reflexivity|].
  destruct IH as [x Hx]; [discriminate|]. exists x. exact Hx.
Qed.

Lemma has_eligible_position {Ctx} (n : Z) (m : mem Ctx) :
  has_eligible n m = true ->
  exists p, 0 <= p < n /\ eligible_at (m_ues m) p = true.
Proof.
  unfold has_eligible, participants. intros H.
  apply existsb_exists in H. destruct H as (u & Hin & Hu).
  apply In_nth_error in Hin. destruct Hin as (k & Hk).
  rewrite nth_error_firstn in Hk.
  destruct (k <? Z.to_nat n)%nat eqn:Hlt; [|discriminate].
  apply Nat.ltb_lt in Hlt.
  exists (Z.of_nat k). split; [lia|].
  unfold eligible_at. rewrite ue_at_nth, Nat2Z.id, Hk by lia. exact Hu.
Qed.

Lemma last_eligible_exists {Ctx} (n s : Z) (m : mem Ctx) :
  0 < n -> has_eligible n m = true ->
  exists L, last_eligible (m_ues m) (traversal n s) = Some L /\
            eligible_at (m_ues m) L = true /\ 0 <= L < n.
Proof.
  intros Hn Hel. destruct (has_eligible_position n m Hel) as (p & Hp & Hpe).
  unfold last_eligible.
  destruct (last_opt_some (filter (eligible_at (m_ues m)) (traversal n s)))
    as [L HL].
  { intros Hnil.
    assert (Hin : In p (filter (eligible_at (m_ues m)) (traversal n s)))
      by (apply filter_In; split; [apply traversal_In; assumption | exact Hpe]).
    rewrite Hnil in Hin. destruct Hin. }
  exists L. split; [exact HL|].
  apply last_opt_In, filter_In in HL. destruct HL as [HT He].
  split; [exact He | apply (traversal_In n s); assumption].
Qed.

(** The last step of a pass from [s] is at the position just before [s]. *)
Lemma traversal_last (n s : Z) :
  0 < n ->
  traversal n s = steps_from n s (Z.to_nat (n - 1)) ++ [(s + n - 1) mod n].
Proof.
  intros Hn. unfold traversal.
  replace (Z.to_nat n) with (S (Z.to_nat (n - 1))) by lia.
  rewrite steps_from_S, Z2Nat.id by lia.
  replace (s + n - 1) with (s + (n - 1)) by lia. reflexivity.
Qed.

(** The result of a call that makes a pass: the position after the last
    eligible one of the traversal when some attempt succeeded, else the
    normalised start. *)
Lemma cursor_run {Ctx} (f : alloc_ue_fn Ctx) (n next_idx : Z) (m : mem Ctx) :
  call_ok n next_idx m = true -> 0 < n -> has_eligible n m = true ->
  exists r m' L,
    wrr_schedule n next_idx (Some f) m = Ok r m' /\
    last_eligible (m_ues m) (traversal n (next_idx mod n)) = Some L /\
    eligible_at (m_ues m) L = true /\ 0 <= L < n /\
    r = if existsb is_success (new_events m m')
        then (L + 1) mod n else next_idx mod n.
Proof.
  intros Hok Hn Hel.
  destruct (wrr_schedule_pass f n next_idx m Hok Hn Hel)
    as (st & m' & evs & E & [Hues Htr Hsh Hrp Hany Hmoved Hkept]).
  destruct (last_eligible_exists n (next_idx mod n) m Hn Hel) as (L & HL & HLe & HLr).
  exists (ps_next_idx st mod n), m', L.
  rewrite (new_events_app _ _ _ Htr).
  repeat split; try assumption; try lia.
  rewrite <- Hany. destruct (ps_any_success st) eqn:Ea.
  - destruct (Hmoved eq_refl) as (i & Hi & Hnext).
    unfold traversal in HL. rewrite Hi in HL. injection HL as ->.
    rewrite Hnext. apply Zmod_mod.
  - rewrite (Hkept eq_refl). reflexivity.
Qed.

(** A pass that ends on an eligible participant leaves the cursor at its
    normalised start, whatever the outcomes. *)
Lemma cursor_stays {Ctx} (f : alloc_ue_fn Ctx) (n next_idx : Z) (m : mem Ctx) :
  call_ok n next_idx m = true -> 0 < n ->
  eligible_at (m_ues m) ((next_idx mod n + n - 1) mod n) = true ->
  exists m', wrr_schedule n next_idx (Some f) m = Ok (next_idx mod n) m'.
Proof.
  intros Hok Hn Hlast.
  assert (Hel : has_eligible n m = true).
  { destruct (has_eligible n m) eqn:E; [reflexivity|].
    pose proof (idle_grant n m ((next_idx mod n + n - 1) mod n) E) as Hg.
    unfold grant in Hg. unfold eligible_at in Hlast.
    destruct (ue_at (m_ues m) _) as [u|]; [|discriminate].
    rewrite Hlast in Hg.
    assert (0 < weight u)
      by (unfold eligible in Hlast; apply andb_true_iff in Hlast; lia).
    assert (weight u = 0) by (apply Hg; apply Z.mod_pos_bound; lia). lia. }
  destruct (cursor_run f n next_idx m Hok Hn Hel)
    as (r & m' & L & E & HL & _ & _ & Hr).
  exists m'. rewrite E. f_equal. rewrite Hr.
  destruct (existsb is_success (new_events m m')); [|reflexivity].
  rewrite traversal_last, last_eligible_snoc, Hlast in HL by exact Hn.
  injection HL as <-.
  rewrite Zplus_mod_idemp_l.
  replace (next_idx mod n + n - 1 + 1) with (next_idx mod n + 1 * n) by lia.
  rewrite Z_mod_plus_full. apply Zmod_mod.
Qed.



(** X2: if the participant visited last, the one just before the start
    position, is eligible, the call returns [next_idx mod n] whatever the
    callback answers: the cursor does not advance. *)
Theorem wrr_cursor_returns_to_start {Ctx} (f : alloc_ue_fn Ctx)
    (n next_idx : Z) (m : mem Ctx) :
  call_ok n next_idx m = true -> 0 < n ->
  eligible_at (m_ues m) ((next_idx mod n + n - 1) mod n) = true ->
  exists m', wrr_schedule n next_idx (Some f) m = Ok (next_idx mod n) m'.
Proof. exact (cursor_stays f n next_idx m). Qed.

Lemma wrr_cursor_returns_to_start_witness :
  exists m', wrr_schedule 3 5 (Some demo_alloc_fn) m_demo = Ok (5 mod 3) m'.
Proof.
  apply (wrr_cursor_returns_to_start demo_alloc_fn 3 5 m_demo);
    [reflexivity | lia | reflexivity].
Defined.

Lemma call_ok_same_ues {Ctx Ctx'} (n next_idx r : Z) (m : mem Ctx) (m2 : mem Ctx') :
  call_ok n next_idx m = true -> m_ues m2 = m_ues m -> 0 <= r < n ->
  call_ok n r m2 = true.
Proof.
  intros Hok Hues Hr. apply call_ok_inv in Hok.
  destruct Hok as (Hn & _ & Hlen & Hall).
  unfold call_ok. rewrite Hues, Hall, !andb_true_iff. repeat split; lia.
Qed.

(** X3: once a call has made a successful attempt, the cursor it returns is
    a fixed point: any later call from that cursor over the same array, with
    any callback and context, returns the same cursor. *)
Theorem wrr_cursor_fixed_after_success {Ctx Ctx'} (f : alloc_ue_fn Ctx)
    (g : alloc_ue_fn Ctx') (n next_idx : Z) (m : mem Ctx) (m2 : mem Ctx') :
  call_ok n next_idx m = true -> 0 < n -> has_eligible n m = true ->
  m_ues m2 = m_ues m ->
  exists r m',
    wrr_schedule n next_idx (Some f) m = Ok r m' /\
    (existsb is_success (new_events m m') = true ->
     exists m2', wrr_schedule n r (Some g) m2 = Ok r m2').
Proof.
  intros Hok Hn Hel Hues.
  destruct (cursor_run f n next_idx m Hok Hn Hel)
    as (r & m' & L & E & HL & HLe & HLr & Hr).
  exists r, m'. split; [exact E|]. intros Hs. rewrite Hs in Hr.
  assert (Hrange : 0 <= r < n) by (rewrite Hr; apply Z.mod_pos_bound; lia).
  assert (Hback : (r mod n + n - 1) mod n = L).
  { rewrite (Z.mod_small r n Hrange), Hr.
    replace ((L + 1) mod n + n - 1) with ((L + 1) mod n + (n - 1)) by lia.
    rewrite Zplus_mod_idemp_l.
    replace (L + 1 + (n - 1)) with (L + 1 * n) by lia.
    rewrite Z_mod_plus_full. apply Z.mod_small, HLr. }
  destruct (cursor_stays g n r m2) as (m2' & E2).
  - apply (call_ok_same_ues n next_idx r m m2); assumption.
  - exact Hn.
  - rewrite Hback, Hues. exact HLe.
  - exists m2'. rewrite E2. f_equal. apply Z.mod_small, Hrange.
Qed.

Lemma wrr_cursor_fixed_after_success_witness :
  exists r m',
    wrr_schedule 4 0 (Some odd_id_alloc) (mk_mem gappy_ues tt []) = Ok r m' /\
    (existsb is_success (new_events (mk_mem gappy_ues tt []) m') = true ->
     exists m2',
       wrr_schedule 4 r (Some demo_alloc_fn)
         (mk_mem gappy_ues (mk_demo_ctx 2) []) = Ok r m2').
Proof.
  apply (wrr_cursor_fixed_after_success odd_id_alloc demo_alloc_fn 4 0
           (mk_mem gappy_ues tt []) (mk_mem gappy_ues (mk_demo_ctx 2) []));
    [reflexivity | lia | reflexivity | reflexivity].
Defined.

Example cursor_fixed_point :
  wrr_schedule 4 0 (Some odd_id_alloc) (mk_mem gappy_ues tt []) =
    Ok 3 (mk_mem gappy_ues tt
            [ EvVisit 0; EvAlloc 0 0 ALLOC_SUCCESS; EvAlloc 0 1 ALLOC_SUCCESS;
              EvVisit 1;
              EvVisit 2; EvAlloc 2 0 ALLOC_SUCCESS; EvAlloc 2 1 ALLOC_SUCCESS;
              EvAlloc 2 2 ALLOC_SUCCESS;
              EvVisit 3 ]) /\
  (exists m2', wrr_schedule 4 3 (Some always_fail) (mk_mem gappy_ues tt []) = Ok 3 m2').
Proof. split; [vm_compute; reflexivity | eexists; vm_compute; reflexivity]. Qed.

(** ** The array must hold [n] records *)

(** The counting loop runs into the end of an array shorter than its
    bound. *)
Lemma count_loop_short {Ctx} (hi : Z) (m : mem Ctx) :
  Z.of_nat (length (m_ues m)) < hi <= size_modulus ->
  forall (d : nat) (fuel : nat) (i c : Z),
    0 <= i -> i + Z.of_nat d = Z.of_nat (length (m_ues m)) -> (d < fuel)%nat ->
    for_loop fuel size_wrap i hi count_body c m = Fault OutOfBounds.
Proof.
  intros Hhi. induction d as [|d IH]; intros fuel i c Hi Hd Hfuel;
    (destruct fuel as [|fuel]; [lia|]); cbn [for_loop]; test_true (i <? hi);
    unfold bind at 1, count_body at 1, bind at 1.
  - unfold load_ue. test_false (i <? 0).
    destruct (nth_error (m_ues m) (Z.to_nat i)) eqn:E; [|reflexivity].
    assert (nth_error (m_ues m) (Z.to_nat i) <> None) by congruence.
    apply nth_error_Some in H. lia.
  - destruct (load_ue_in_bounds i m) as (u & _ & ->); [lia|].
    rewrite size_wrap_small by lia.
    destruct (active u && (weight u >? 0)); cbn [ret]; apply IH; lia.
Qed.

(** X4: a call with [n > 0] and a callback reads all of [ues[0 .. n-1]]:
    it returns exactly when the array holds at least [n] records, and
    otherwise runs past the end of the array. *)
Theorem wrr_schedule_needs_n_records {Ctx} (f : alloc_ue_fn Ctx)
    (n next_idx : Z) (m : mem Ctx) :
  0 < n < size_modulus -> 0 <= next_idx < size_modulus ->
  forallb ue_ok (m_ues m) = true ->
  ((exists r m', wrr_schedule n next_idx (Some f) m = Ok r m') <->
   n <= Z.of_nat (length (m_ues m))) /\
  (Z.of_nat (length (m_ues m)) < n ->
   wrr_schedule n next_idx (Some f) m = Fault OutOfBounds).
Proof.
  intros Hn Hnx Hall.
  assert (Hshort : Z.of_nat (length (m_ues m)) < n ->
                   wrr_schedule n next_idx (Some f) m = Fault OutOfBounds).
  { intros Hlen. unfold wrr_schedule. test_false (n =? 0). unfold bind.
    rewrite (count_loop_short n m) with (d := length (m_ues m));
      [reflexivity | lia | lia | lia | lia]. }
  split; [|exact Hshort]. split.
  - intros (r & m' & E).
    destruct (Z_lt_le_dec (Z.of_nat (length (m_ues m))) n) as [Hlt|Hle];
      [|exact Hle].
    rewrite (Hshort Hlt) in E. discriminate E.
  - intros Hlen.
    destruct (wrr_schedule_total (Some f) n next_idx m) as (r & m' & _ & E & _).
    + unfold call_ok. rewrite Hall, !andb_true_iff. repeat split; lia.
    + exists r, m'. exact E.
Qed.

Lemma wrr_schedule_needs_n_records_witness :
  ((exists r m', wrr_schedule 4 0 (Some demo_alloc_fn) m_demo = Ok r m') <->
   4 <= Z.of_nat (length (m_ues m_demo))) /\
  (Z.of_nat (length (m_ues m_demo)) < 4 ->
   wrr_schedule 4 0 (Some demo_alloc_fn) m_demo = Fault OutOfBounds).
Proof.
  apply (wrr_schedule_needs_n_records demo_alloc_fn 4 0 m_demo);
    [unfold size_modulus, SIZE_BITS; lia
    | unfold size_modulus, SIZE_BITS; lia
    | reflexivity].
Defined.

(** ** What a call can see of the array *)


Lemma ue_eqb_refl (u : ue_t) : ue_eqb u u = true.
Proof.
  unfold ue_eqb. rewrite !Z.eqb_refl, eqb_reflx. reflexivity.
Qed.


Lemma alike_upto_firstn (k : nat) (us1 us2 : list ue_t) :
  firstn k us1 = firstn k us2 -> alike_upto k us1 us2 = true.
Proof.
  revert us1 us2. induction k as [|k IH]; intros us1 us2 H; [reflexivity|].
  destruct us1 as [|u1 r1], us2 as [|u2 r2]; cbn in H |- *;
    try discriminate; [reflexivity|].
  injection H as -> Hr. rewrite ue_eqb_refl, (IH _ _ Hr). reflexivity.
Qed.

Section Pinned.

Context {Ctx : Type}.
Variables (f : alloc_ue_fn Ctx) (n : Z) (us1 us2 : list ue_t)
          (t1 t2 : list event).
Hypothesis alike : alike_upto (Z.to_nat n) us1 us2 = true.










End Pinned.



(** ** The demonstration callback under the scheduler *)

Lemma attempts_cons_visit (idx : Z) (evs : list event) :
  attempts (EvVisit idx :: evs) = attempts evs.
Proof. reflexivity. Qed.

Lemma attempts_cons_alloc (idx k : Z) (res : alloc_outcome_t) (evs : list event) :
  attempts (EvAlloc idx k res :: evs) = 1 + attempts evs.
Proof. unfold attempts. cbn [filter is_alloc length]. lia. Qed.

Lemma attempts_nonneg (evs : list event) : 0 <= attempts evs.
Proof. unfold attempts. lia. Qed.

(** Replaying [demo_alloc_fn] from budget [b]: the first attempts succeed
    while budget remains, every later one fails, and each success burns
    one unit. *)
Lemma replay_demo (ues : list ue_t) (evs : list event) :
  forall (b : Z) (c' : demo_ctx_t),
    replay demo_alloc_fn ues evs (mk_demo_ctx b) = Some c' ->
    alloc_outcomes evs =
      repeat ALLOC_SUCCESS (Z.to_nat (demo_granted b (attempts evs))) ++
      repeat ALLOC_FAIL (Z.to_nat (attempts evs - demo_granted b (attempts evs))) /\
    rb_budget c' = b - demo_granted b (attempts evs).
Proof.
  unfold demo_granted.
  induction evs as [|[idx|idx k res] evs IH]; intros b c' H.
  - cbn in H. injection H as <-. change (attempts []) with 0.
    replace (Z.min (Z.max b 0) 0) with 0 by lia. cbn. split; [reflexivity | lia].
  - rewrite attempts_cons_visit. apply IH, H.
  - pose proof (attempts_nonneg evs) as Hatt.
    rewrite attempts_cons_alloc. cbn [replay alloc_outcomes] in *.
    destruct (ue_at ues idx) as [u|]; [|discriminate].
    unfold demo_alloc_fn in H. cbn [rb_budget] in H.
    destruct (b <=? 0) eqn:Eb.
    + apply Z.leb_le in Eb. destruct res; cbn [outcome_eqb] in H; [|discriminate].
      destruct (IH _ _ H) as [Hout Hbud].
      replace (Z.min (Z.max b 0) (1 + attempts evs)) with 0 by lia.
      replace (Z.min (Z.max b 0) (attempts evs)) with 0 in Hout, Hbud by lia.
      replace (Z.to_nat (1 + attempts evs - 0))
        with (S (Z.to_nat (attempts evs - 0))) by lia.
      cbn [Z.to_nat repeat app] in *. rewrite Hout. split; [reflexivity | lia].
    + apply Z.leb_gt in Eb. destruct res; cbn [outcome_eqb] in H; [discriminate|].
      destruct (IH _ _ H) as [Hout Hbud].
      replace (Z.min (Z.max b 0) (1 + attempts evs))
        with (1 + Z.min (Z.max (b - 1) 0) (attempts evs)) by lia.
      replace (Z.to_nat (1 + Z.min (Z.max (b - 1) 0) (attempts evs)))
        with (S (Z.to_nat (Z.min (Z.max (b - 1) 0) (attempts evs)))) by lia.
      replace (1 + attempts evs - (1 + Z.min (Z.max (b - 1) 0) (attempts evs)))
        with (attempts evs - Z.min (Z.max (b - 1) 0) (attempts evs)) by lia.
      cbn [repeat app]. rewrite Hout. split; [reflexivity | lia].
Qed.

(** A well-formed call with a callback: it returns, and its events are a
    replay of the callback with as many attempts as the eligible weights. *)
Lemma wrr_schedule_run {Ctx} (f : alloc_ue_fn Ctx) (n next_idx : Z) (m : mem Ctx) :
  call_ok n next_idx m = true -> 0 < n ->
  exists r m',
    wrr_schedule n next_idx (Some f) m = Ok r m' /\
    replay f (m_ues m) (new_events m m') (m_ctx m) = Some (m_ctx m') /\
    attempts (new_events m m') = sum_weights (participants n m).
Proof.
  intros Hok Hn. destruct (has_eligible n m) eqn:Hel.
  - destruct (wrr_schedule_pass f n next_idx m Hok Hn Hel)
      as (st & m' & evs & E & HR).
    apply call_ok_inv in Hok. destruct Hok as (_ & _ & Hlen & _).
    destruct (pass_counts f n next_idx m st m' evs Hn Hlen HR) as [Htot _].
    exists (ps_next_idx st mod n), m'.
    rewrite (new_events_app _ _ _ (pr_trace _ _ _ _ _ _ _ _ _ HR)).
    split; [exact E|]. split; [exact (pr_replay _ _ _ _ _ _ _ _ _ HR) | exact Htot].
  - exists (next_idx mod n), m. split; [apply wrr_schedule_idle; assumption|].
    rewrite new_events_refl, idle_sum_weights by exact Hel.
    split; reflexivity.
Qed.

(** X6: under [demo_alloc_fn] the budget is handed out first come, first
    served: with budget [b] and eligible weights adding up to [W], the
    first [min (max b 0) W] attempts of the pass succeed, all later ones
    fail, and the budget left is [b] less the successes (so it never goes
    below zero from a budget that was not). *)
Theorem demo_budget_first_come (n next_idx : Z) (m : mem demo_ctx_t) :
  call_ok n next_idx m = true -> 0 < n ->
  exists r m',
    wrr_schedule n next_idx (Some demo_alloc_fn) m = Ok r m' /\
    alloc_outcomes (new_events m m') =
      repeat ALLOC_SUCCESS
        (Z.to_nat (demo_granted (rb_budget (m_ctx m))
                                (sum_weights (participants n m)))) ++
      repeat ALLOC_FAIL
        (Z.to_nat (sum_weights (participants n m) -
                   demo_granted (rb_budget (m_ctx m))
                                (sum_weights (participants n m)))) /\
    rb_budget (m_ctx m') =
      rb_budget (m_ctx m) -
      demo_granted (rb_budget (m_ctx m)) (sum_weights (participants n m)).
Proof.
  intros Hok Hn.
  destruct (wrr_schedule_run demo_alloc_fn n next_idx m Hok Hn)
    as (r & m' & E & Hrp & Hatt).
  exists r, m'. split; [exact E|].
  destruct (m_ctx m) as [b]. cbn [rb_budget].
  rewrite <- Hatt. apply (replay_demo (m_ues m)). exact Hrp.
Qed.

Lemma demo_budget_first_come_witness :
  exists r m',
    wrr_schedule 3 5 (Some demo_alloc_fn) m_demo = Ok r m' /\
    alloc_outcomes (new_events m_demo m') =
      repeat ALLOC_SUCCESS
        (Z.to_nat (demo_granted (rb_budget (m_ctx m_demo))
                                (sum_weights (participants 3 m_demo)))) ++
      repeat ALLOC_FAIL
        (Z.to_nat (sum_weights (participants 3 m_demo) -
                   demo_granted (rb_budget (m_ctx m_demo))
                                (sum_weights (participants 3 m_demo)))) /\
    rb_budget (m_ctx m') =
      rb_budget (m_ctx m_demo) -
      demo_granted (rb_budget (m_ctx m_demo)) (sum_weights (participants 3 m_demo)).
Proof.
  apply (demo_budget_first_come 3 5 m_demo); [reflexivity | lia].
Defined.

Lemma outcomes_success (evs : list event) (a b : nat) :
  alloc_outcomes evs = repeat ALLOC_SUCCESS a ++ repeat ALLOC_FAIL b ->
  existsb is_success evs = negb (a =? 0)%nat.
Proof.
  revert a b. induction evs as [|[idx|idx k res] evs IH]; intros a b H; cbn in H.
  - destruct a; [reflexivity | discriminate].
  - cbn. apply (IH a b), H.
  - destruct a as [|a]; cbn in H.
    + destruct b as [|b]; [discriminate|]. cbn in H. injection H as -> H.
      cbn. apply (IH 0%nat b). exact H.
    + injection H as -> H. reflexivity.
Qed.

Lemma sum_weights_pos {Ctx} (n : Z) (m : mem Ctx) :
  has_eligible n m = true -> 0 < sum_weights (participants n m).
Proof.
  unfold has_eligible, sum_weights. intros H.
  assert (Hne : filter eligible (participants n m) <> [])
    by (intros E; apply existsb_false_filter in E; congruence).
  assert (Hall : forall u, In u (filter eligible (participants n m)) -> 0 < weight u).
  { intros u Hu. apply filter_In in Hu. destruct Hu as [_ Hu].
    unfold eligible in Hu. apply andb_true_iff in Hu. lia. }
  induction (filter eligible (participants n m)) as [|u l IH]; [congruence|].
  cbn. assert (0 < weight u) by (apply Hall; now left).
  destruct l as [|v l]; [cbn; lia|].
  assert (0 < fold_right Z.add 0 (map weight (v :: l))).
  { apply IH; [discriminate|]. intros w Hw. apply Hall. now right. }
  lia.
Qed.

(** X7: under [demo_alloc_fn], in a call that makes a pass, the cursor moves
    exactly when the budget is positive, and then to the position after the
    last eligible participant of the traversal, whether or not the budget
    lasted until that participant. *)
Theorem demo_cursor (n next_idx : Z) (m : mem demo_ctx_t) :
  call_ok n next_idx m = true -> 0 < n -> has_eligible n m = true ->
  exists r m' L,
    wrr_schedule n next_idx (Some demo_alloc_fn) m = Ok r m' /\
    last_eligible (m_ues m) (traversal n (next_idx mod n)) = Some L /\
    r = if 0 <? rb_budget (m_ctx m) then (L + 1) mod n else next_idx mod n.
Proof.
  intros Hok Hn Hel.
  destruct (cursor_run demo_alloc_fn n next_idx m Hok Hn Hel)
    as (r & m' & L & E & HL & _ & _ & Hr).
  destruct (wrr_schedule_run demo_alloc_fn n next_idx m Hok Hn)
    as (r2 & m2' & E2 & Hrp & Hatt).
  rewrite E in E2. injection E2 as <- <-.
  exists r, m', L. split; [exact E|]. split; [exact HL|].
  pose proof (sum_weights_pos n m Hel) as HW.
  destruct (m_ctx m) as [b] eqn:Ec. cbn [rb_budget].
  destruct (replay_demo _ _ _ _ Hrp) as [Hout _].
  rewrite (outcomes_success _ _ _ Hout), Hatt in Hr. rewrite Hr.
  unfold demo_granted.
  destruct (0 <? b) eqn:Eb.
  - apply Z.ltb_lt in Eb.
    replace (Z.to_nat (Z.min (Z.max b 0) (sum_weights (participants n m))) =? 0)%nat
      with false by (symmetry; apply Nat.eqb_neq; lia).
    reflexivity.
  - apply Z.ltb_ge in Eb.
    replace (Z.to_nat (Z.min (Z.max b 0) (sum_weights (participants n m))) =? 0)%nat
      with true by (symmetry; apply Nat.eqb_eq; lia).
    reflexivity.
Qed.

Lemma demo_cursor_witness :
  exists r m' L,
    wrr_schedule 4 0 (Some demo_alloc_fn) (mk_mem gappy_ues (mk_demo_ctx 1) [])
      = Ok r m' /\
    last_eligible gappy_ues (traversal 4 (0 mod 4)) = Some L /\
    r = if 0 <? 1 then (L + 1) mod 4 else 0 mod 4.
Proof.
  apply (demo_cursor 4 0 (mk_mem gappy_ues (mk_demo_ctx 1) []));
    [reflexivity | lia | reflexivity].
Defined.

(** With a budget of one unit the first participant takes it, and the
    cursor still moves past position 2, which was attempted in vain. *)
Example demo_cursor_past_unserved :
  match wrr_schedule 4 0 (Some demo_alloc_fn)
          (mk_mem gappy_ues (mk_demo_ctx 1) []) with
  | Ok r m' =>
      r = 3 /\
      alloc_outcomes (new_events (mk_mem gappy_ues (mk_demo_ctx 1) []) m') =
        [ALLOC_SUCCESS; ALLOC_FAIL; ALLOC_FAIL; ALLOC_FAIL; ALLOC_FAIL]
  | Fault _ => False
  end.
Proof. vm_compute. split; reflexivity. Qed.

(** ** The driver *)

Lemma demo_ues_eligible (p : Z) :
  0 <= p < 3 -> eligible_at demo_ues p = true.
Proof.
  intros Hp.
  assert (Hc : p = 0 \/ p = 1 \/ p = 2) by lia.
  destruct Hc as [-> | [-> | ->]]; reflexivity.
Qed.

(** X8: in [main] the cursor never rotates: from any start, every
    scheduling instant of the loop returns the start reduced modulo 3, for
    any number of instants (from 0, as in [main], the cursor stays 0). *)
Theorem main_cursor_never_rotates (ttis : nat) (next_idx : Z) (trace : list event) :
  0 <= next_idx < size_modulus ->
  main_loop ttis next_idx trace = repeat (next_idx mod 3) ttis.
Proof.
  revert next_idx trace. induction ttis as [|ttis IH]; intros next_idx trace Hnx;
    [reflexivity|].
  cbn [main_loop repeat].
  assert (Hr : 0 <= next_idx mod 3 < 3) by (apply Z.mod_pos_bound; lia).
  destruct (cursor_stays demo_alloc_fn 3 next_idx
              (mk_mem demo_ues (mk_demo_ctx 6) trace)) as (m' & E).
  - unfold call_ok. cbn [m_ues].
    rewrite !andb_true_iff, !Z.leb_le, !Z.ltb_lt. repeat split; try lia;
      reflexivity.
  - lia.
  - apply demo_ues_eligible. apply Z.mod_pos_bound. lia.
  - rewrite E. f_equal.
    rewrite IH by (unfold size_modulus, SIZE_BITS; lia).
    now rewrite Zmod_mod.
Qed.

Lemma main_cursor_never_rotates_witness :
  main_loop 5 0 [] = repeat (0 mod 3) 5.
Proof.
  apply (main_cursor_never_rotates 5 0 []). unfold size_modulus, SIZE_BITS. lia.
Defined.

(** ** What the callback is never asked *)

Lemma step_shape_attempt (ues : list ue_t) (l : list Z) (p k : Z) :
  In (p, Some k) (flat_map (step_shape ues) l) ->
  In p l /\ 0 <= k < grant ues p.
Proof.
  rewrite in_flat_map. intros (x & Hx & Hin). unfold step_shape in Hin.
  destruct Hin as [Heq|Hin]; [discriminate|].
  apply in_map_iff in Hin. destruct Hin as (j & Heq & Hj).
  injection Heq as -> <-. split; [exact Hx|].
  apply in_seq in Hj. lia.
Qed.

(** X9: the callback is only invoked for eligible participants of
    [ues[0 .. n-1]]: every invocation is at a position below [n] whose
    record is active with a positive weight, and its attempt number is
    below that weight. *)
Theorem wrr_attempts_only_eligible {Ctx} (f : alloc_ue_fn Ctx)
    (n next_idx : Z) (m : mem Ctx) :
  call_ok n next_idx m = true -> 0 < n ->
  exists r m',
    wrr_schedule n next_idx (Some f) m = Ok r m' /\
    (forall idx k res, In (EvAlloc idx k res) (new_events m m') ->
       0 <= idx < n /\
       exists u, ue_at (m_ues m) idx = Some u /\
                 active u = true /\ 0 <= k < weight u).
Proof.
  intros Hok Hn. destruct (has_eligible n m) eqn:Hel.
  - destruct (wrr_schedule_pass f n next_idx m Hok Hn Hel)
      as (st & m' & evs & E & HR).
    exists (ps_next_idx st mod n), m'. split; [exact E|].
    rewrite (new_events_app _ _ _ (pr_trace _ _ _ _ _ _ _ _ _ HR)).
    intros idx k res Hin.
    assert (Hsh : In (idx, Some k) (map event_shape evs))
      by (apply in_map_iff; exists (EvAlloc idx k res); auto).
    rewrite (pr_shape _ _ _ _ _ _ _ _ _ HR) in Hsh.
    apply step_shape_attempt in Hsh. destruct Hsh as [HT Hk].
    split; [apply (steps_from_range n (next_idx mod n) (Z.to_nat n)); assumption|].
    unfold grant in Hk. destruct (ue_at (m_ues m) idx) as [u|]; [|lia].
    exists u. split; [reflexivity|].
    destruct (eligible u) eqn:Eu; [|lia].
    unfold eligible in Eu. apply andb_true_iff in Eu. split; [apply Eu | exact Hk].
  - exists (next_idx mod n), m. split; [apply wrr_schedule_idle; assumption|].
    rewrite new_events_refl. intros idx k res [].
Qed.

Lemma wrr_attempts_only_eligible_witness :
  exists r m',
    wrr_schedule 4 6 (Some odd_id_alloc) (mk_mem gappy_ues tt []) = Ok r m' /\
    (forall idx k res,
       In (EvAlloc idx k res) (new_events (mk_mem gappy_ues tt []) m') ->
       0 <= idx < 4 /\
       exists u, ue_at gappy_ues idx = Some u /\
                 active u = true /\ 0 <= k < weight u).
Proof.
  apply (wrr_attempts_only_eligible odd_id_alloc 4 6 (mk_mem gappy_ues tt []));
    [reflexivity | lia].
Defined.
